(** * InMemoryDB-Benchmarking: the log ingestion pipeline

    A shallow embedding of the two Python scripts of the repository,

    - [converterData.py]: the line parser [parse_log_line] and the
      ingestion loop that collects the parsed entries and dumps them
      as JSON;
    - [uploadFileDB.py]: [sanitize_key] and the fan-out writer
      [load_data_to_in_memory_db] over two Redis instances, Memcached
      and a PostgreSQL table,

    together with the properties of the pipeline stated in the
    specification.

    Python text is modelled as [list ascii]: the access log is decoded
    as ISO-8859-1, so every character of a line is one code point below
    256, which is what [ascii] holds. *)

From Stdlib Require Import ZArith Lia Ascii String.
From stdpp Require Import gmap strings list.

Local Open Scope Z_scope.

(** ** Text *)

Abbreviation str := (list ascii).

Coercion list_ascii_of_string : string >-> list.

(** The double quote, code point 34. *)
Definition dq : ascii := "034"%char.

Definition code (a : ascii) : N := N_of_ascii a.

(** Character classes of Python's [re] on [str] patterns, restricted to
    the code points below 256: [\s] is [str.isspace], [\d] the decimal
    digits (only the ASCII ones below 256), [.] everything but the line
    feed. *)
Definition is_space (a : ascii) : bool :=
  let n := code a in
  ((9 <=? n) && (n <=? 13) || (28 <=? n) && (n <=? 32)
   || (n =? 133) || (n =? 160))%N.

Definition is_digit (a : ascii) : bool :=
  let n := code a in ((48 <=? n) && (n <=? 57))%N.

Definition is_newline (a : ascii) : bool := (code a =? 10)%N.

Inductive cclass :=
| CSpace      (* \s *)
| CNonSpace   (* \S *)
| CDigit      (* \d *)
| CAny.       (* .  *)

Definition in_class (cc : cclass) (a : ascii) : bool :=
  match cc with
  | CSpace => is_space a
  | CNonSpace => negb (is_space a)
  | CDigit => is_digit a
  | CAny => negb (is_newline a)
  end.

(** ** Exceptions *)

Inductive exc :=
| ValueError
| TypeError
| KeyError (k : str)
| DataError         (* redis.exceptions.DataError *)
| UndefinedTable.   (* psycopg2.errors.UndefinedTable *)

Inductive result (A : Type) :=
| Ok (a : A)
| Raise (e : exc).
Arguments Ok {A} a.
Arguments Raise {A} e.

Global Instance result_bind : MBind result := λ A B f m,
  match m with
  | Ok a => f a
  | Raise e => Raise e
  end.

(** ** Regular expressions

    The fragment of [re] the two scripts use: literals, character
    classes, sequence, alternation, numbered groups, and the quantifiers
    [+] (greedy), [*?] (lazy) and [{n}] over a character class. *)

Module Re.

Inductive regex :=
| RLit (l : str)
| RSet (cc : cclass)
| RSeq (r1 r2 : regex)
| RAlt (r1 r2 : regex)
| RGroup (n : nat) (r : regex)
| RPlus (cc : cclass)
| RLazy (cc : cclass)
| RCount (n : nat) (cc : cclass).

(** The groups captured so far, most recent first. *)
Definition caps := list (nat * str).

Definition group (m : caps) (n : nat) : option str :=
  snd <$> List.find (λ p, Nat.eqb p.1 n) m.

Fixpoint strip_prefix (l s : str) : option str :=
  match l with
  | [] => Some s
  | a :: l' =>
      match s with
      | b :: s' => if Ascii.eqb a b then strip_prefix l' s' else None
      | [] => None
      end
  end.

(** What was consumed between the subject [s] and its suffix [s1]. *)
Definition consumed (s s1 : str) : str := take (length s - length s1) s.

Section Matcher.
Context {A : Type}.

(** [cc+]: as many characters as possible first, then fewer. The
    first character has been checked by the caller. *)
Fixpoint greedy (cc : cclass) (s : str) (k : str → option A) : option A :=
  match s with
  | a :: s' =>
      if in_class cc a then
        match greedy cc s' k with
        | Some r => Some r
        | None => k s
        end
      else k s
  | [] => k s
  end.

(** [cc*?]: as few characters as possible first, then more. *)
Fixpoint lazy_star (cc : cclass) (s : str) (k : str → option A) : option A :=
  match k s with
  | Some r => Some r
  | None =>
      match s with
      | a :: s' => if in_class cc a then lazy_star cc s' k else None
      | [] => None
      end
  end.

Fixpoint count (n : nat) (cc : cclass) (s : str) (k : str → option A) : option A :=
  match n with
  | O => k s
  | S n' =>
      match s with
      | a :: s' => if in_class cc a then count n' cc s' k else None
      | [] => None
      end
  end.

(** The backtracking matcher in continuation-passing style: [k]
    is what remains of the pattern, called on the rest of the subject
    and the groups; the alternatives are tried in priority order and
    the first success is the match. *)
Fixpoint rmatch (r : regex) (s : str) (c : caps)
    (k : str → caps → option A) : option A :=
  match r with
  | RLit l =>
      match strip_prefix l s with
      | Some s' => k s' c
      | None => None
      end
  | RSet cc =>
      match s with
      | a :: s' => if in_class cc a then k s' c else None
      | [] => None
      end
  | RSeq r1 r2 => rmatch r1 s c (λ s1 c1, rmatch r2 s1 c1 k)
  | RAlt r1 r2 =>
      match rmatch r1 s c k with
      | Some res => Some res
      | None => rmatch r2 s c k
      end
  | RGroup n r1 =>
      rmatch r1 s c (λ s1 c1, k s1 ((n, consumed s s1) :: c1))
  | RPlus cc =>
      match s with
      | a :: s' => if in_class cc a then greedy cc s' (λ s1, k s1 c) else None
      | [] => None
      end
  | RLazy cc => lazy_star cc s (λ s1, k s1 c)
  | RCount n cc => count n cc s (λ s1, k s1 c)
  end.
End Matcher.

(** [re.match]: anchored at the start of the subject, any suffix may
    remain. The result holds the groups and the unmatched rest. *)
Definition re_match (r : regex) (s : str) : option (caps * str) :=
  rmatch r s [] (λ s1 c1, Some (c1, s1)).

End Re.

Export Re.

Infix "⨾" := RSeq (at level 62, right associativity).

(** ** converterData.py *)

(** Python values that occur in the parsed entries. *)
Inductive pyval :=
| VNone
| VStr (s : str)
| VInt (z : Z).

(** A [dict] with string keys, in insertion order. *)
Definition dict := list (str * pyval).

Global Instance pyval_eq_dec : EqDecision pyval.
Proof. solve_decision. Defined.

(** [d.get(k)]: the value under the key [k], if any. *)
Fixpoint dict_get (d : dict) (k : str) : option pyval :=
  match d with
  | [] => None
  | (k', v) :: d' => if bool_decide (k' = k) then Some v else dict_get d' k
  end.

Definition digit_val (a : ascii) : Z := Z.of_N (code a) - 48.

(** [int(s)] on text: the decimal value of a non-empty string of
    digits, with an optional sign. Python's [int] also accepts
    surrounding blanks and underscores between digits; they are left as
    [ValueError] here, so that a call the model lets through is one
    Python lets through. *)
Definition py_nat (s : str) : result Z :=
  if negb (forallb is_digit s) || bool_decide (s = []) then Raise ValueError
  else Ok (fold_left (λ acc a, 10 * acc + digit_val a) s 0).

Definition py_int (s : str) : result Z :=
  match s with
  | "-"%char :: ds => z ← py_nat ds; Ok (- z)
  | "+"%char :: ds => py_nat ds
  | _ => py_nat s
  end.

Module Converter.

(** r'(\S+) - - \[(.*?)\] "(.*?)" (\d{3}) (\d+|-)' *)
Definition pattern : regex :=
  RGroup 1 (RPlus CNonSpace) ⨾ RLit " - - [" ⨾
  RGroup 2 (RLazy CAny) ⨾ RLit ("] " ++ [dq]) ⨾
  RGroup 3 (RLazy CAny) ⨾ RLit (dq :: " ") ⨾
  RGroup 4 (RCount 3 CDigit) ⨾ RLit " " ⨾
  RGroup 5 (RAlt (RPlus CDigit) (RLit "-")).

(** [int(m.group(n))]: a group that took no part in the match is [None],
    on which [int] raises [TypeError]. *)
Definition int_of_group (g : option str) : result Z :=
  match g with
  | Some s => py_int s
  | None => Raise TypeError
  end.

Definition parse_log_line (line : str) : result (option dict) :=
  match re_match pattern line with
  | Some (m, _) =>
      let host := group m 1 in
      let timestamp := group m 2 in
      let request := group m 3 in
      http_reply_code ← int_of_group (group m 4);
      let bytes_reply := group m 5 in
      bytes_reply ←
        (if bool_decide (bytes_reply = Some ("-" : str)) then Ok 0
         else int_of_group bytes_reply);
      Ok (Some [("host" : str, from_option VStr VNone host);
                ("timestamp" : str, from_option VStr VNone timestamp);
                ("request" : str, from_option VStr VNone request);
                ("http_reply_code" : str, VInt http_reply_code);
                ("bytes" : str, VInt bytes_reply)])
  | None => Ok None
  end.

(** The ingestion loop: [if data: parsed_data.append(data)]. [None] and
    the empty dict are the false values [data] can take. *)
Definition ingest_line (parsed_data : list dict) (line : str) : result (list dict) :=
  data ← parse_log_line line;
  Ok match data with
     | Some ((_ :: _) as d) => parsed_data ++ [d]
     | _ => parsed_data
     end.

Fixpoint ingest (parsed_data : list dict) (lines : list str) : result (list dict) :=
  match lines with
  | [] => Ok parsed_data
  | line :: lines' =>
      parsed_data' ← ingest_line parsed_data line;
      ingest parsed_data' lines'
  end.

End Converter.

Import Converter.


(** ** The exchange form: [json.dump] and [json.load]

    The encoder and the decoder of Python's [json] module on the
    documents the ingestion loop writes: an array of objects whose
    values are strings, integers or [null]. Other JSON documents are
    outside this fragment, and [json_load] rejects them. *)

Module Json.

(** The backslash, code point 92. *)
Definition bs : ascii := "092"%char.

(** The line feed, code point 10. *)
Definition lf : ascii := "010"%char.

(** *** Encoding *)

Definition digit_char (d : Z) : ascii := ascii_of_N (Z.to_N (48 + d)).

Fixpoint digits (fuel : nat) (n : Z) (acc : str) : str :=
  match fuel with
  | O => acc
  | S fuel' =>
      let acc' := digit_char (n mod 10) :: acc in
      if n <? 10 then acc' else digits fuel' (n / 10) acc'
  end.

(** [repr(n)] for [0 <= n]: the decimal digits, most significant first.
    The fuel is the bit length of [n], which bounds their number. *)
Definition repr_nat (n : Z) : str := digits (S (Z.to_nat (Z.log2 n))) n [].

Definition repr (z : Z) : str :=
  if z <? 0 then "-"%char :: repr_nat (- z) else repr_nat z.

Definition hex_char (n : N) : ascii :=
  ascii_of_N (if n <? 10 then 48 + n else 87 + n)%N.

(** [encode_basestring_ascii]: the quote, the backslash and the five
    control characters with a short escape get it, the other characters
    outside the printable ASCII range are written as [\u00xx]. *)
Definition escape (a : ascii) : str :=
  let n := code a in
  if (n =? 34)%N then [bs; dq]
  else if (n =? 92)%N then [bs; bs]
  else if (n =? 10)%N then bs :: "n"
  else if (n =? 13)%N then bs :: "r"
  else if (n =? 9)%N then bs :: "t"
  else if (n =? 12)%N then bs :: "f"
  else if (n =? 8)%N then bs :: "b"
  else if ((32 <=? n) && (n <=? 126))%N then [a]
  else bs :: "u00" ++ [hex_char (n / 16); hex_char (n mod 16)].

Definition encode_str (s : str) : str := dq :: concat (map escape s) ++ [dq].

Definition encode_val (v : pyval) : str :=
  match v with
  | VNone => "null"
  | VStr s => encode_str s
  | VInt z => repr z
  end.

Fixpoint join (sep : str) (l : list str) : str :=
  match l with
  | [] => []
  | [x] => x
  | x :: l' => x ++ sep ++ join sep l'
  end.

Definition encode_item (kv : str * pyval) : str :=
  encode_str kv.1 ++ ": " ++ encode_val kv.2.

(** [json.dumps(entry)], with the default separators. *)
Definition json_dumps (d : dict) : str :=
  match d with
  | [] => "{}"
  | _ => "{" ++ join ", " (map encode_item d) ++ "}"
  end.

(** With [indent=4] every item starts on a line of its own, four blanks
    deeper per level. *)
Definition newline_indent (level : nat) : str := lf :: repeat " "%char (4 * level).

Definition encode_dict (level : nat) (d : dict) : str :=
  match d with
  | [] => "{}"
  | _ => "{" ++ newline_indent (S level)
             ++ join ("," ++ newline_indent (S level)) (map encode_item d)
             ++ newline_indent level ++ "}"
  end.

(** [json.dump(parsed_data, json_file, indent=4)]: the text written. *)
Definition json_dump (data : list dict) : str :=
  match data with
  | [] => "[]"
  | _ => "[" ++ newline_indent 1
             ++ join ("," ++ newline_indent 1) (map (encode_dict 1) data)
             ++ newline_indent 0 ++ "]"
  end.

(** *** Decoding *)

Definition is_json_ws (a : ascii) : bool :=
  let n := code a in ((n =? 32) || (n =? 9) || (n =? 10) || (n =? 13))%N.

Fixpoint skip_ws (s : str) : str :=
  match s with
  | a :: s' => if is_json_ws a then skip_ws s' else s
  | [] => []
  end.

Definition hex_val (a : ascii) : option N :=
  let n := code a in
  if ((48 <=? n) && (n <=? 57))%N then Some (n - 48)%N
  else if ((97 <=? n) && (n <=? 102))%N then Some (n - 87)%N
  else if ((65 <=? n) && (n <=? 70))%N then Some (n - 55)%N
  else None.

(** The characters a backslash may stand before. *)
Definition unescape (esc : ascii) : option ascii :=
  if Ascii.eqb esc dq then Some dq
  else if Ascii.eqb esc bs then Some bs
  else if Ascii.eqb esc "/" then Some "/"%char
  else if Ascii.eqb esc "b" then Some "008"%char
  else if Ascii.eqb esc "f" then Some "012"%char
  else if Ascii.eqb esc "n" then Some lf
  else if Ascii.eqb esc "r" then Some "013"%char
  else if Ascii.eqb esc "t" then Some "009"%char
  else None.

(** [scanstring], after the opening quote: the text up to the closing
    quote with the escapes resolved, and what follows the quote. A
    [\uxxxx] above 255 has no place in [ascii] and is rejected. *)
Fixpoint scanstring (s : str) : result (str * str) :=
  match s with
  | [] => Raise ValueError
  | a :: s1 =>
      if Ascii.eqb a dq then Ok ([], s1)
      else if Ascii.eqb a bs then
        match s1 with
        | [] => Raise ValueError
        | esc :: s2 =>
            if Ascii.eqb esc "u" then
              match s2 with
              | h1 :: h2 :: h3 :: h4 :: s3 =>
                  match hex_val h1, hex_val h2, hex_val h3, hex_val h4 with
                  | Some n1, Some n2, Some n3, Some n4 =>
                      let n := (4096 * n1 + 256 * n2 + 16 * n3 + n4)%N in
                      if (n <? 256)%N then
                        '(x, r) ← scanstring s3; Ok (ascii_of_N n :: x, r)
                      else Raise ValueError
                  | _, _, _, _ => Raise ValueError
                  end
              | _ => Raise ValueError
              end
            else
              match unescape esc with
              | Some c => '(x, r) ← scanstring s2; Ok (c :: x, r)
              | None => Raise ValueError
              end
        end
      else if (code a <? 32)%N then Raise ValueError
      else '(x, r) ← scanstring s1; Ok (a :: x, r)
  end.

Fixpoint span_digits (s : str) : str * str :=
  match s with
  | a :: s' =>
      if is_digit a then let '(d, r) := span_digits s' in (a :: d, r)
      else ([], s)
  | [] => ([], [])
  end.

(** A dot or an exponent mark after the digits would make the number a
    float, outside the fragment. *)
Definition float_mark (s : str) : bool :=
  match s with
  | c :: _ => Ascii.eqb c "." || Ascii.eqb c "e" || Ascii.eqb c "E"
  | [] => false
  end.

(** The digits of a number, after its sign: a zero, or a run of digits
    that does not start with zero; [int] then converts the sign and the
    digits. *)
Definition scan_unsigned (sign s1 : str) : result (Z * str) :=
  match s1 with
  | a :: s2 =>
      if negb (is_digit a) then Raise ValueError
      else
        let '(tok, r) :=
          if Ascii.eqb a "0" then ([a], s2)
          else let '(d, r) := span_digits s2 in (a :: d, r) in
        if float_mark r then Raise ValueError
        else z ← py_int (sign ++ tok); Ok (z, r)
  | [] => Raise ValueError
  end.

(** A number: an optional minus, then the digits. *)
Definition scan_int (s : str) : result (Z * str) :=
  match s with
  | a :: s' => if Ascii.eqb a "-" then scan_unsigned [a] s' else scan_unsigned [] s
  | [] => Raise ValueError
  end.

Definition scan_value (s : str) : result (pyval * str) :=
  match s with
  | a :: s1 =>
      if Ascii.eqb a dq then '(x, r) ← scanstring s1; Ok (VStr x, r)
      else
        match strip_prefix "null" s with
        | Some r => Ok (VNone, r)
        | None => '(z, r) ← scan_int s; Ok (VInt z, r)
        end
  | [] => Raise ValueError
  end.

(** [d[k] = v]: a key already there keeps its place. *)
Fixpoint dict_set (d : dict) (k : str) (v : pyval) : dict :=
  match d with
  | [] => [(k, v)]
  | (k', v') :: d' =>
      if bool_decide (k' = k) then (k, v) :: d' else (k', v') :: dict_set d' k v
  end.

(** The members of an object, from the opening quote of a key on. The
    fuel counts the members still allowed; the callers give the number
    of characters left, which no text exceeds. *)
Fixpoint scan_members (fuel : nat) (s : str) (acc : dict) : result (dict * str) :=
  match fuel with
  | O => Raise ValueError
  | S fuel' =>
      match s with
      | a :: s1 =>
          if negb (Ascii.eqb a dq) then Raise ValueError
          else
            '(key, s2) ← scanstring s1;
            match skip_ws s2 with
            | c :: s3 =>
                if negb (Ascii.eqb c ":") then Raise ValueError
                else
                  '(v, s4) ← scan_value (skip_ws s3);
                  let acc' := dict_set acc key v in
                  match skip_ws s4 with
                  | e :: s5 =>
                      if Ascii.eqb e "}" then Ok (acc', s5)
                      else if Ascii.eqb e "," then
                        scan_members fuel' (skip_ws s5) acc'
                      else Raise ValueError
                  | [] => Raise ValueError
                  end
            | [] => Raise ValueError
            end
      | [] => Raise ValueError
      end
  end.

(** An object, after its opening brace. *)
Definition scan_object (s : str) : result (dict * str) :=
  match skip_ws s with
  | a :: s1 =>
      if Ascii.eqb a "}" then Ok ([], s1)
      else scan_members (length (a :: s1)) (a :: s1) []
  | [] => Raise ValueError
  end.

(** The elements of the array, from the opening brace of one on. *)
Fixpoint scan_elements (fuel : nat) (s : str) (acc : list dict)
    : result (list dict * str) :=
  match fuel with
  | O => Raise ValueError
  | S fuel' =>
      match s with
      | a :: s1 =>
          if negb (Ascii.eqb a "{") then Raise ValueError
          else
            '(d, s2) ← scan_object s1;
            match skip_ws s2 with
            | e :: s3 =>
                if Ascii.eqb e "]" then Ok (acc ++ [d], s3)
                else if Ascii.eqb e "," then
                  scan_elements fuel' (skip_ws s3) (acc ++ [d])
                else Raise ValueError
            | [] => Raise ValueError
            end
      | [] => Raise ValueError
      end
  end.

(** [json.load(file)] on the text of the file: blanks around the
    document are skipped, anything else after it is an error. *)
Definition json_load (text : str) : result (list dict) :=
  match skip_ws text with
  | a :: s1 =>
      if negb (Ascii.eqb a "[") then Raise ValueError
      else
        '(data, s2) ←
          match skip_ws s1 with
          | e :: s2 =>
              if Ascii.eqb e "]" then Ok ([], s2)
              else scan_elements (length (e :: s2)) (e :: s2) []
          | [] => Raise ValueError
          end;
        match skip_ws s2 with
        | [] => Ok data
        | _ :: _ => Raise ValueError
        end
  | [] => Raise ValueError
  end.

End Json.

Import Json.

(** ** uploadFileDB.py *)

Module Upload.

(** [re.sub(r, repl, s)] for a pattern that matches no empty word: the
    text is scanned from the left, a match is replaced and the scan goes
    on after it, any other character is copied. [skip] counts the
    characters of the current match still to pass. *)
Fixpoint re_sub_go (r : regex) (repl : str) (skip : nat) (s : str) : str :=
  match s with
  | [] => []
  | a :: s' =>
      match skip with
      | S n => re_sub_go r repl n s'
      | O =>
          match re_match r s with
          | Some (_, rest) =>
              match (length s - length rest)%nat with
              | S n => repl ++ re_sub_go r repl n s'
              | O => a :: re_sub_go r repl 0 s'
              end
          | None => a :: re_sub_go r repl 0 s'
          end
      end
  end.

Definition re_sub (r : regex) (repl s : str) : str := re_sub_go r repl 0 s.

(** re.sub(r'\s+', '_', key) *)
Definition sanitize_key (key : str) : str := re_sub (RPlus CSpace) "_" key.

(** [entry[k]] *)
Definition getitem (d : dict) (k : str) : result pyval :=
  match dict_get d k with
  | Some v => Ok v
  | None => Raise (KeyError k)
  end.

(** [str(v)], as an f-string formats a value. *)
Definition format (v : pyval) : str :=
  match v with
  | VNone => "None"
  | VStr s => s
  | VInt z => repr z
  end.

(** The key of an entry in the three key-value stores:
    [sanitize_key(f"{entry['host']}:{entry['timestamp']}")]. *)
Definition dedup_key (entry : dict) : result str :=
  host ← getitem entry "host";
  timestamp ← getitem entry "timestamp";
  Ok (sanitize_key (format host ++ ":" ++ format timestamp)).

(** *** The backends *)

(** The columns of [nasa_logs], as [create_pg_table] declares them. *)
Inductive column := Id | Host | Timestamp | Request | Status | BytesSent.

Global Instance column_eq_dec : EqDecision column.
Proof. solve_decision. Defined.

(** The sets of columns the schema declares unique: [id SERIAL PRIMARY
    KEY], and nothing else. *)
Definition unique_constraints : list (list column) := [[Id]].

Record pg_row := {
  row_id : Z;
  row_host : pyval;
  row_timestamp : pyval;
  row_request : pyval;
  row_status : pyval;
  row_bytes_sent : pyval
}.

Definition col (r : pg_row) (c : column) : pyval :=
  match c with
  | Id => VInt (row_id r)
  | Host => row_host r
  | Timestamp => row_timestamp r
  | Request => row_request r
  | Status => row_status r
  | BytesSent => row_bytes_sent r
  end.

(** Two rows conflict when they agree on all the columns of one of the
    unique constraints. *)
Definition conflict (r1 r2 : pg_row) : bool :=
  existsb (λ cols, forallb (λ c, bool_decide (col r1 c = col r2 c)) cols)
          unique_constraints.

(** The two Redis databases, Memcached, and the PostgreSQL table with
    the sequence behind its [SERIAL] column. [nasa_logs] is the table as
    the open transaction sees it, [None] before it is created;
    [committed] is what a commit has made durable. Stored text stands
    for its bytes. The checks of the client libraries on keys are not
    modelled. *)
Record backends := {
  redis_hashes : gmap str (gmap str str);
  redis_strings : gmap str str;
  memcached : gmap str str;
  nasa_logs : option (list pg_row);
  nasa_logs_id_seq : Z;
  committed : option (list pg_row)
}.

Definition init : backends :=
  {| redis_hashes := ∅; redis_strings := ∅; memcached := ∅;
     nasa_logs := None; nasa_logs_id_seq := 1; committed := None |}.

(** Code that works on the backends and may raise. *)
Definition io (A : Type) : Type := backends → backends * result A.

Global Instance io_ret : MRet io := λ A a st, (st, Ok a).
Global Instance io_bind : MBind io := λ A B f m st,
  match m st with
  | (st', Ok a) => f a st'
  | (st', Raise e) => (st', Raise e)
  end.

Definition lift {A} (r : result A) : io A := λ st, (st, r).

(** What redis-py sends for a value: text as it is, an integer in
    decimal; [None] is refused. *)
Definition redis_encode (v : pyval) : result str :=
  match v with
  | VNone => Raise DataError
  | VStr s => Ok s
  | VInt z => Ok (repr z)
  end.

Fixpoint encode_mapping (d : dict) : result (list (str * str)) :=
  match d with
  | [] => Ok []
  | (k, v) :: d' =>
      x ← redis_encode v;
      l ← encode_mapping d';
      Ok ((k, x) :: l)
  end.

(** [redis_client.hset(key, mapping=entry)]: the fields of the mapping
    are set in the hash under [key], the other fields of the hash
    stay. An empty mapping is refused. *)
Definition hset (key : str) (mapping : dict) : io unit := λ st,
  match mapping, encode_mapping mapping with
  | [], _ => (st, Raise DataError)
  | _, Raise e => (st, Raise e)
  | _, Ok fields =>
      let h := default ∅ (redis_hashes st !! key) in
      let h' := foldl (λ h fv, <[fv.1 := fv.2]> h) h fields in
      ({| redis_hashes := <[key := h']> (redis_hashes st);
          redis_strings := redis_strings st;
          memcached := memcached st;
          nasa_logs := nasa_logs st;
          nasa_logs_id_seq := nasa_logs_id_seq st;
          committed := committed st |}, Ok ())
  end.

(** [redis_simple_client.set(key, value)] *)
Definition redis_set (key value : str) : io unit := λ st,
  ({| redis_hashes := redis_hashes st;
      redis_strings := <[key := value]> (redis_strings st);
      memcached := memcached st;
      nasa_logs := nasa_logs st;
      nasa_logs_id_seq := nasa_logs_id_seq st;
      committed := committed st |}, Ok ()).

(** [memcached_client.set(key, value)] *)
Definition memcached_set (key value : str) : io unit := λ st,
  ({| redis_hashes := redis_hashes st;
      redis_strings := redis_strings st;
      memcached := <[key := value]> (memcached st);
      nasa_logs := nasa_logs st;
      nasa_logs_id_seq := nasa_logs_id_seq st;
      committed := committed st |}, Ok ()).

(** INSERT INTO nasa_logs (host, timestamp, request, status, bytes_sent)
    VALUES (...) ON CONFLICT DO NOTHING: the id is drawn from the
    sequence, and the row is added unless it conflicts with a row of the
    table. *)
Definition insert_row (host timestamp request status bytes_sent : pyval)
    : io unit := λ st,
  match nasa_logs st with
  | None => (st, Raise UndefinedTable)
  | Some rows =>
      let row := {| row_id := nasa_logs_id_seq st; row_host := host;
                    row_timestamp := timestamp; row_request := request;
                    row_status := status; row_bytes_sent := bytes_sent |} in
      let rows' := if existsb (conflict row) rows then rows else rows ++ [row] in
      ({| redis_hashes := redis_hashes st;
          redis_strings := redis_strings st;
          memcached := memcached st;
          nasa_logs := Some rows';
          nasa_logs_id_seq := nasa_logs_id_seq st + 1;
          committed := committed st |}, Ok ())
  end.

(** [pg_conn.commit()] *)
Definition commit : io unit := λ st,
  ({| redis_hashes := redis_hashes st;
      redis_strings := redis_strings st;
      memcached := memcached st;
      nasa_logs := nasa_logs st;
      nasa_logs_id_seq := nasa_logs_id_seq st;
      committed := nasa_logs st |}, Ok ()).

(** CREATE TABLE IF NOT EXISTS nasa_logs (...), committed. *)
Definition create_pg_table : io unit := λ st,
  commit {| redis_hashes := redis_hashes st;
            redis_strings := redis_strings st;
            memcached := memcached st;
            nasa_logs := Some (default [] (nasa_logs st));
            nasa_logs_id_seq := nasa_logs_id_seq st;
            committed := committed st |}.

(** *** The fan-out writer *)

(** The body of the loop over the entries. *)
Definition load_entry (entry : dict) : io unit :=
  sanitized_key ← lift (dedup_key entry);
  let entry_json := json_dumps entry in
  hset sanitized_key entry;;
  redis_set sanitized_key entry_json;;
  memcached_set sanitized_key entry_json;;
  host ← lift (getitem entry "host");
  timestamp ← lift (getitem entry "timestamp");
  request ← lift (getitem entry "request");
  status ← lift (getitem entry "status");
  bytes_sent ← lift (getitem entry "bytes_sent");
  insert_row host timestamp request status bytes_sent.

Fixpoint load_entries (data : list dict) : io unit :=
  match data with
  | [] => mret ()
  | entry :: data' => load_entry entry;; load_entries data'
  end.

(** [file] is the text of [parsed_NASA_access_log.json]. *)
Definition load_data_to_in_memory_db (file : str) : io unit :=
  data ← lift (json_load file);
  load_entries data;;
  commit.

(** The script: [create_pg_table()], then
    [load_data_to_in_memory_db()]. *)
Definition upload (file : str) : io unit :=
  create_pg_table;; load_data_to_in_memory_db file.

End Upload.

Import Upload.

(** * The notions of the statements *)

(** ** The words of a pattern *)

(** Every character of [w] is in the class [cc]. *)
Abbreviation all cc := (Forall (λ a : ascii, in_class cc a = true)).

(** The words of a pattern, with the groups they capture: [matches r w
    c c'] says that [r] matches exactly [w] and turns the groups [c]
    into [c'], whatever the order in which a matcher would find it. *)
Fixpoint matches (r : regex) (w : str) (c c' : caps) : Prop :=
  match r with
  | RLit l => w = l ∧ c' = c
  | RSet cc => (∃ a, w = [a] ∧ in_class cc a = true) ∧ c' = c
  | RSeq r1 r2 =>
      ∃ w1 w2 c1, w = w1 ++ w2 ∧ matches r1 w1 c c1 ∧ matches r2 w2 c1 c'
  | RAlt r1 r2 => matches r1 w c c' ∨ matches r2 w c c'
  | RGroup n r1 => ∃ c1, matches r1 w c c1 ∧ c' = (n, w) :: c1
  | RPlus cc => (w ≠ [] ∧ all cc w) ∧ c' = c
  | RLazy cc => all cc w ∧ c' = c
  | RCount n cc => (length w = n ∧ all cc w) ∧ c' = c
  end.

(** ** The shape of a log line *)

(** The shape of an access-log line the specification describes: a host
    without blanks, the [- -] marker, the bracketed timestamp, the quoted
    request, three status digits and a byte count or a dash, at the start
    of the line. *)
Definition conforms (line : str) : Prop :=
  ∃ host ts req status b rest : str,
    line = host ++ " - - [" ++ ts ++ "] " ++ [dq] ++ req ++ [dq] ++ " "
                ++ status ++ " " ++ b ++ rest
    ∧ (host ≠ [] ∧ all CNonSpace host)
    ∧ all CAny ts ∧ all CAny req
    ∧ (length status = 3%nat ∧ all CDigit status)
    ∧ (b = "-" ∨ (b ≠ [] ∧ all CDigit b)).

Definition head_digit (s : str) : bool :=
  match s with
  | a :: _ => is_digit a
  | [] => false
  end.

Definition head_space (s : str) : bool :=
  match s with
  | a :: _ => is_space a
  | [] => false
  end.

(** [runs_replaced s t]: [t] is [s] with every maximal run of
    whitespace replaced by one underscore, and nothing else changed. *)
Inductive runs_replaced : str → str → Prop :=
| rr_end : runs_replaced [] []
| rr_keep a s t :
    is_space a = false → runs_replaced s t →
    runs_replaced (a :: s) (a :: t)
| rr_run w s t :
    w ≠ [] → all CSpace w → head_space s = false → runs_replaced s t →
    runs_replaced (w ++ s) ("_"%char :: t).

(** ** The tails of the pattern *)

Definition final : str → caps → option (caps * str) := λ s1 c1, Some (c1, s1).

(** A tail of the pattern run to the end of the match. *)
Definition run (r : regex) (s : str) (c : caps) : option (caps * str) :=
  rmatch r s c final.

Definition tail_bytes : regex := RGroup 5 (RAlt (RPlus CDigit) (RLit "-")).

Definition tail_status : regex :=
  RGroup 4 (RCount 3 CDigit) ⨾ RLit " " ⨾ tail_bytes.

Definition tail_quote : regex := RLit (dq :: " ") ⨾ tail_status.

Definition tail_request : regex := RGroup 3 (RLazy CAny) ⨾ tail_quote.

Definition tail_bracket : regex := RLit ("] " ++ [dq]) ⨾ tail_request.

Definition tail_timestamp : regex := RGroup 2 (RLazy CAny) ⨾ tail_bracket.

Definition tail_marker : regex := RLit " - - [" ⨾ tail_timestamp.

(** The seven characters that end a request: the quote, a blank, three
    digits, a blank and the first character of the byte count. *)
Definition closes (s : str) : bool :=
  match s with
  | q :: b1 :: d1 :: d2 :: d3 :: b2 :: x :: _ =>
      Ascii.eqb q dq && Ascii.eqb b1 " " && is_digit d1 && is_digit d2
      && is_digit d3 && Ascii.eqb b2 " " && (is_digit x || Ascii.eqb x "-")
  | _ => false
  end.

(** How the match of a line and the match of the line with [E]
    appended compare: the groups before the byte count are the same, and
    so are the byte count and the rest unless [E] starts with a digit. *)
Definition extends (E : str) (res res' : caps * str) : Prop :=
  ∃ b b' c0,
    res.1 = (5%nat, b) :: c0 ∧ res'.1 = (5%nat, b') :: c0
    ∧ (head_digit E = false → b' = b ∧ res'.2 = res.2 ++ E).

(** ** Sample lines and entries *)

Definition line1 : str :=
  "198.0.0.1 - - [01/Jul/1995:00:00:01 -0400] " ++ [dq] ++
  "GET /index.html HTTP/1.0" ++ [dq] ++ " 200 1024".

Definition line_dash : str :=
  "198.0.0.1 - - [01/Jul/1995:00:00:01 -0400] " ++ [dq] ++
  "GET /index.html HTTP/1.0" ++ [dq] ++ " 200 -".

(** A line with only two dash-delimited fields. *)
Definition line_bad : str := "198.0.0.1 - -".

Definition lineA : str :=
  "h.example.com - - [01/Jul/1995:00:00:01 -0400] " ++ [dq] ++
  "GET /a HTTP/1.0" ++ [dq] ++ " 200 10".

Definition lineB : str :=
  "h.example.com - - [01/Jul/1995:00:00:01 -0400] " ++ [dq] ++
  "GET /b HTTP/1.0" ++ [dq] ++ " 404 -".

Definition entry1 : dict :=
  [("host" : str, VStr "198.0.0.1");
   ("timestamp" : str, VStr "01/Jul/1995:00:00:01 -0400");
   ("request" : str, VStr "GET /index.html HTTP/1.0");
   ("http_reply_code" : str, VInt 200);
   ("bytes" : str, VInt 1024)].

Definition entryA : dict :=
  [("host" : str, VStr "h.example.com");
   ("timestamp" : str, VStr "01/Jul/1995:00:00:01 -0400");
   ("request" : str, VStr "GET /a HTTP/1.0");
   ("http_reply_code" : str, VInt 200);
   ("bytes" : str, VInt 10)].

Definition entryB : dict :=
  [("host" : str, VStr "h.example.com");
   ("timestamp" : str, VStr "01/Jul/1995:00:00:01 -0400");
   ("request" : str, VStr "GET /b HTTP/1.0");
   ("http_reply_code" : str, VInt 404);
   ("bytes" : str, VInt 0)].

(** The entries as the writer expects them, with the status under
    [status] and the byte count under [bytes_sent]. *)
Definition wentryA : dict :=
  [("host" : str, VStr "h.example.com");
   ("timestamp" : str, VStr "01/Jul/1995:00:00:01 -0400");
   ("request" : str, VStr "GET /a HTTP/1.0");
   ("status" : str, VInt 200);
   ("bytes_sent" : str, VInt 10)].

Definition wentryB : dict :=
  [("host" : str, VStr "h.example.com");
   ("timestamp" : str, VStr "01/Jul/1995:00:00:01 -0400");
   ("request" : str, VStr "GET /b HTTP/1.0");
   ("status" : str, VInt 404);
   ("bytes_sent" : str, VInt 0)].

(** ** Rows and entries of the writer *)

(** The entry has the five values the insert reads. *)
Definition has_columns (e : dict) (h t r s b : pyval) : Prop :=
  dict_get e "host" = Some h ∧ dict_get e "timestamp" = Some t
  ∧ dict_get e "request" = Some r ∧ dict_get e "status" = Some s
  ∧ dict_get e "bytes_sent" = Some b.


Definition new_row (id : Z) (h t r s b : pyval) : pg_row :=
  {| row_id := id; row_host := h; row_timestamp := t; row_request := r;
     row_status := s; row_bytes_sent := b |}.

(** ** The text of the exchange form *)

Abbreviation horner :=
  (fold_left (λ (acc : Z) (a : ascii), 10 * acc + digit_val a)).

Definition head_ws (s : str) : bool :=
  match s with
  | a :: _ => is_json_ws a
  | [] => false
  end.

Abbreviation blank := (Forall (λ a : ascii, is_json_ws a = true)).

(** What follows a value in the text: a comma, or blanks and the
    closing brace. *)
Definition after_value (s : str) : Prop :=
  (∃ t, s = ","%char :: t) ∨ (∃ w t, blank w ∧ s = w ++ "}"%char :: t).

(** ** Further notions *)


(** A line in which the request holds a quote followed by what looks
    like a status and a byte count. *)
Definition line_cut : str :=
  "h - - [t] " ++ [dq] ++ "GET /x" ++ [dq] ++ " 200 5" ++ [dq] ++ " 404 7".

Definition entry_cut : dict :=
  [("host" : str, VStr "h"); ("timestamp" : str, VStr "t");
   ("request" : str, VStr "GET /x");
   ("http_reply_code" : str, VInt 200);
   ("bytes" : str, VInt 5)].

(** The backends after the three key-value writes of an entry under
    [key], [fields] being the encoded mapping. *)
Definition kv_written (key : str) (e : dict) (fields : list (str * str))
    (st : backends) : backends :=
  {| redis_hashes :=
       <[key := foldl (λ h fv, <[fv.1 := fv.2]> h)
                  (default ∅ (redis_hashes st !! key)) fields]>
         (redis_hashes st);
     redis_strings := <[key := json_dumps e]> (redis_strings st);
     memcached := <[key := json_dumps e]> (memcached st);
     nasa_logs := nasa_logs st;
     nasa_logs_id_seq := nasa_logs_id_seq st;
     committed := committed st |}.

(** The second half of the loop body: the arguments of the insert are
    read from the entry, then the row is inserted. *)
Definition insert_entry (entry : dict) : io unit :=
  host ← lift (getitem entry "host");
  timestamp ← lift (getitem entry "timestamp");
  request ← lift (getitem entry "request");
  status ← lift (getitem entry "status");
  bytes_sent ← lift (getitem entry "bytes_sent");
  insert_row host timestamp request status bytes_sent.

(** The last entry of a list that has the key [key]. *)
Fixpoint latest (key : str) (data : list dict) : option dict :=
  match data with
  | [] => None
  | e :: data' =>
      match latest key data' with
      | Some e' => Some e'
      | None =>
          match dedup_key e with
          | Ok k => if bool_decide (k = key) then Some e else None
          | Raise _ => None
          end
      end
  end.





(** The characters that need no escape in a JSON text: the printable
    ASCII range. *)
Definition printable (a : ascii) : bool :=
  ((32 <=? code a) && (code a <=? 126))%N.


(** * Properties *)

(** ** The matcher *)

Section MatcherFacts.
Context {A : Type}.
Implicit Types (k : str → option A) (s w : str) (cc : cclass).

Lemma strip_prefix_Some l s s' : strip_prefix l s = Some s' ↔ s = l ++ s'.
Proof.
  revert s. induction l as [|a l IH]; intros s; simpl.
  - split; congruence.
  - destruct s as [|b s]; [split; discriminate|].
    destruct (Ascii.eqb_spec a b) as [->|Hne].
    + rewrite IH. split; congruence.
    + split; [discriminate | congruence].
Qed.

Lemma strip_prefix_app l s : strip_prefix l (l ++ s) = Some s.
Proof. by apply strip_prefix_Some. Qed.

Lemma consumed_app w s : consumed (w ++ s) s = w.
Proof.
  unfold consumed. rewrite length_app.
  replace (length w + length s - length s)%nat with (length w) by lia.
  by rewrite take_app_length.
Qed.

(** [greedy] fails exactly when the rest of the pattern fails after
    every run of class characters. *)
Lemma greedy_None cc s k :
  greedy cc s k = None ↔ ∀ w s1, s = w ++ s1 → all cc w → k s1 = None.
Proof.
  induction s as [|a s IH]; simpl.
  - split.
    + intros Hk w s1 Heq _. symmetry in Heq.
      apply app_eq_nil in Heq as [_ ->]. done.
    + intros H. by apply (H [] []).
  - split.
    + intros Hg [|b w] s1 Heq Hw; simpl in Heq.
      * subst s1. destruct (in_class cc a); [|done].
        by destruct (greedy cc s k).
      * injection Heq as -> ->. inversion Hw; subst.
        destruct (in_class cc b); [|done].
        destruct (greedy cc (w ++ s1) k) eqn:Hg'; [done|].
        by eapply IH.
    + intros H. rewrite (H [] (a :: s)) by done.
      destruct (in_class cc a) eqn:Ha; [|done].
      replace (greedy cc s k) with (@None A); [done|].
      symmetry. apply IH. intros w s1 -> Hw.
      apply (H (a :: w) s1); [done|]. by constructor.
Qed.

(** [greedy] returns the result of the rest of the pattern after the
    longest run of class characters after which it succeeds. *)
Lemma greedy_Some cc s k res :
  greedy cc s k = Some res ↔
  ∃ w s1, s = w ++ s1 ∧ all cc w ∧ k s1 = Some res ∧
    ∀ w' s', s = w' ++ s' → all cc w' → (length w < length w')%nat →
             k s' = None.
Proof.
  revert res. induction s as [|a s IH]; intros res; simpl.
  - split.
    + intros Hk. exists [], []. repeat split; [constructor|done|].
      intros w' s' Heq _ Hlen. symmetry in Heq.
      apply app_eq_nil in Heq as [-> _]. simpl in Hlen. lia.
    + intros (w & s1 & Heq & _ & Hk & _). symmetry in Heq.
      apply app_eq_nil in Heq as [_ ->]. done.
  - split.
    + intros Hg.
      destruct (in_class cc a) eqn:Ha;
        [destruct (greedy cc s k) as [r|] eqn:Hg'|].
      * injection Hg as ->.
        destruct (proj1 (IH res) eq_refl) as (w & s1 & -> & Hw & Hk & Hmax).
        exists (a :: w), s1. repeat split; [by constructor|done|].
        intros [|b w'] s' Heq Hw' Hlen; simpl in *; [lia|].
        injection Heq as -> Heq. inversion Hw'; subst.
        eapply Hmax; eauto. lia.
      * exists [], (a :: s). repeat split; [constructor|done|].
        intros [|b w'] s' Heq Hw' Hlen; simpl in *; [lia|].
        injection Heq as -> ->. inversion Hw'; subst.
        by eapply greedy_None.
      * exists [], (a :: s). repeat split; [constructor|done|].
        intros [|b w'] s' Heq Hw' Hlen; simpl in *; [lia|].
        injection Heq as -> ->. inversion Hw'; subst. congruence.
    + intros (w & s1 & Heq & Hw & Hk & Hmax).
      destruct w as [|b w]; simpl in Heq.
      * subst s1. rewrite Hk.
        destruct (in_class cc a) eqn:Ha; [|done].
        replace (greedy cc s k) with (@None A); [done|].
        symmetry. apply greedy_None. intros w s1 -> Hw1.
        apply (Hmax (a :: w) s1); [done|by constructor|simpl; lia].
      * injection Heq as -> ->. inversion Hw; subst.
        replace (in_class cc b) with true by done.
        replace (greedy cc (w ++ s1) k) with (Some res); [done|].
        symmetry. apply IH. exists w, s1. repeat split; [done..|].
        intros w' s' Heq Hw' Hlen.
        apply (Hmax (b :: w') s'); [by rewrite Heq|by constructor|].
        simpl. lia.
Qed.

Lemma lazy_None cc s k :
  lazy_star cc s k = None ↔ ∀ w s1, s = w ++ s1 → all cc w → k s1 = None.
Proof.
  induction s as [|a s IH]; simpl.
  - split.
    + intros Hk w s1 Heq _. symmetry in Heq.
      apply app_eq_nil in Heq as [_ ->]. by destruct (k []).
    + intros H. by rewrite (H [] []).
  - split.
    + intros Hg [|b w] s1 Heq Hw; simpl in Heq.
      * subst s1. by destruct (k (a :: s)).
      * injection Heq as -> ->. inversion Hw; subst.
        destruct (k (b :: w ++ s1)); [done|].
        destruct (in_class cc b); [|done]. by eapply IH.
    + intros H. rewrite (H [] (a :: s)) by done.
      destruct (in_class cc a) eqn:Ha; [|done].
      apply IH. intros w s1 -> Hw.
      apply (H (a :: w) s1); [done|]. by constructor.
Qed.

(** [lazy_star] returns the result of the rest of the pattern after
    the shortest run of class characters after which it succeeds. *)
Lemma lazy_Some cc s k res :
  lazy_star cc s k = Some res ↔
  ∃ w s1, s = w ++ s1 ∧ all cc w ∧ k s1 = Some res ∧
    ∀ w' s', s = w' ++ s' → (length w' < length w)%nat → k s' = None.
Proof.
  revert res. induction s as [|a s IH]; intros res; simpl.
  - split.
    + intros Hk. exists [], []. destruct (k []) eqn:Hk0; [|done].
      repeat split; [constructor|done|]. simpl. lia.
    + intros (w & s1 & Heq & _ & Hk & _). symmetry in Heq.
      apply app_eq_nil in Heq as [_ ->]. by rewrite Hk.
  - split.
    + intros Hg. destruct (k (a :: s)) as [r|] eqn:Hk.
      * exists [], (a :: s). repeat split; [constructor|congruence|].
        simpl. lia.
      * destruct (in_class cc a) eqn:Ha; [|done].
        apply IH in Hg as (w & s1 & -> & Hw & Hk1 & Hmin).
        exists (a :: w), s1. repeat split; [by constructor|done|].
        intros [|b w'] s' Heq Hlen; simpl in *.
        -- by subst.
        -- injection Heq as -> Heq. eapply Hmin; eauto. lia.
    + intros (w & s1 & Heq & Hw & Hk & Hmin).
      destruct w as [|b w]; simpl in Heq.
      * subst s1. by rewrite Hk.
      * injection Heq as -> ->. inversion Hw; subst.
        rewrite (Hmin [] (b :: w ++ s1)) by (done || simpl; lia).
        replace (in_class cc b) with true by done.
        apply IH. exists w, s1. repeat split; [done..|].
        intros w' s' Heq Hlen.
        apply (Hmin (b :: w') s'); [by rewrite Heq|simpl; lia].
Qed.

Lemma count_Some n cc s k res :
  count n cc s k = Some res ↔
  ∃ w s1, s = w ++ s1 ∧ length w = n ∧ all cc w ∧ k s1 = Some res.
Proof.
  revert s. induction n as [|n IH]; intros s; simpl.
  - split.
    + intros Hk. by exists [], s.
    + intros (w & s1 & -> & Hlen & _ & Hk).
      by destruct w.
  - split.
    + destruct s as [|a s]; [done|].
      destruct (in_class cc a) eqn:Ha; [|done].
      intros (w & s1 & -> & Hlen & Hw & Hk)%IH.
      exists (a :: w), s1. repeat split; [simpl; lia|by constructor|done].
    + intros (w & s1 & -> & Hlen & Hw & Hk).
      destruct w as [|a w]; [done|]. simpl in *. inversion Hw; subst.
      replace (in_class cc a) with true by done.
      apply IH. exists w, s1. repeat split; [lia|done..].
Qed.

Lemma greedy_is_Some cc w s k :
  all cc w → is_Some (k s) → is_Some (greedy cc (w ++ s) k).
Proof.
  intros Hw [r Hk]. destruct (greedy cc (w ++ s) k) eqn:Hg; [done|].
  rewrite (proj1 (greedy_None _ _ _) Hg w s) in Hk; done.
Qed.

Lemma lazy_is_Some cc w s k :
  all cc w → is_Some (k s) → is_Some (lazy_star cc (w ++ s) k).
Proof.
  intros Hw [r Hk]. destruct (lazy_star cc (w ++ s) k) eqn:Hg; [done|].
  rewrite (proj1 (lazy_None _ _ _) Hg w s) in Hk; done.
Qed.
End MatcherFacts.

Section MatcherSound.
Context {A : Type}.
Implicit Types (k : str → caps → option A).

(** Whatever [rmatch] returns comes from a word of the pattern at the
    start of the subject. *)
Lemma rmatch_sound r s c k res :
  rmatch r s c k = Some res →
  ∃ w s1 c1, s = w ++ s1 ∧ matches r w c c1 ∧ k s1 c1 = Some res.
Proof.
  revert s c k res. induction r as [l|cc|r1 IH1 r2 IH2|r1 IH1 r2 IH2|n r IH|cc|cc|n cc];
    intros s c k res; simpl.
  - destruct (strip_prefix l s) as [s'|] eqn:Hp; [|done].
    apply strip_prefix_Some in Hp as ->. intros Hk. by exists l, s', c.
  - destruct s as [|a s]; [done|]. destruct (in_class cc a) eqn:Ha; [|done].
    intros Hk. exists [a], s, c. repeat split; [by exists a|done].
  - intros (w1 & s1 & c1 & -> & Hm1 & Hk)%IH1.
    apply IH2 in Hk as (w2 & s2 & c2 & -> & Hm2 & Hk).
    exists (w1 ++ w2), s2, c2. rewrite <- (assoc_L (++)).
    repeat split; [|done]. by exists w1, w2, c1.
  - destruct (rmatch r1 s c k) as [res'|] eqn:H1.
    + intros [= ->]. apply IH1 in H1 as (w & s1 & c1 & -> & Hm & Hk).
      exists w, s1, c1. repeat split; [by left|done].
    + intros (w & s1 & c1 & -> & Hm & Hk)%IH2.
      exists w, s1, c1. repeat split; [by right|done].
  - intros (w & s1 & c1 & -> & Hm & Hk)%IH.
    rewrite consumed_app in Hk. exists w, s1, ((n, w) :: c1).
    repeat split; [by exists c1|done].
  - destruct s as [|a s]; [done|]. destruct (in_class cc a) eqn:Ha; [|done].
    intros (w & s1 & -> & Hw & Hk & _)%greedy_Some.
    exists (a :: w), s1, c. repeat split; [done|by constructor|done].
  - intros (w & s1 & -> & Hw & Hk & _)%lazy_Some. by exists w, s1, c.
  - intros (w & s1 & -> & Hlen & Hw & Hk)%count_Some. by exists w, s1, c.
Qed.

(** Whether a word belongs to a pattern does not depend on the
    groups captured before it. *)
Lemma matches_caps r w c c1 c' : matches r w c c1 → ∃ c1', matches r w c' c1'.
Proof.
  revert w c c1 c'. induction r as [l|cc|r1 IH1 r2 IH2|r1 IH1 r2 IH2|n r IH|cc|cc|n cc];
    intros w c c1 c'; simpl.
  - intros [-> _]. by exists c'.
  - intros [Ha _]. by exists c'.
  - intros (w1 & w2 & c2 & -> & Hm1 & Hm2).
    destruct (IH1 _ _ _ c' Hm1) as [c2' Hm1'].
    destruct (IH2 _ _ _ c2' Hm2) as [c1' Hm2'].
    exists c1', w1, w2, c2'. done.
  - intros [Hm|Hm].
    + destruct (IH1 _ _ _ c' Hm) as [c1' Hm']. exists c1'. by left.
    + destruct (IH2 _ _ _ c' Hm) as [c1' Hm']. exists c1'. by right.
  - intros (c2 & Hm & _). destruct (IH _ _ _ c' Hm) as [c2' Hm'].
    exists ((n, w) :: c2'), c2'. done.
  - intros [Hw _]. by exists c'.
  - intros [Hw _]. by exists c'.
  - intros [Hw _]. by exists c'.
Qed.

(** Conversely [rmatch] finds a match whenever a word of the pattern
    starts the subject and the rest of the pattern accepts what
    follows it. *)
Lemma rmatch_complete r w s c c1 k :
  matches r w c c1 → (∀ c', is_Some (k s c')) →
  is_Some (rmatch r (w ++ s) c k).
Proof.
  revert w s c c1 k. induction r as [l|cc|r1 IH1 r2 IH2|r1 IH1 r2 IH2|n r IH|cc|cc|n cc];
    intros w s c c1 k; simpl.
  - intros [-> ->] Hk. by rewrite strip_prefix_app.
  - intros [(a & -> & Ha) ->] Hk. simpl. by rewrite Ha.
  - intros (w1 & w2 & c2 & -> & Hm1 & Hm2) Hk.
    rewrite <- (assoc_L (++)). eapply IH1; [done|].
    intros c'. destruct (matches_caps _ _ _ _ c' Hm2) as [c2' Hm2'].
    by eapply IH2.
  - intros [Hm|Hm] Hk.
    + destruct (IH1 _ _ _ _ _ Hm Hk) as [res ->]. done.
    + destruct (rmatch r1 (w ++ s) c k); [done|]. by eapply IH2.
  - intros (c2 & Hm & ->) Hk. eapply IH; [done|].
    intros c'. apply Hk.
  - intros [[Hne Hw] ->] Hk. destruct w as [|a w]; [done|].
    inversion Hw; subst. simpl. replace (in_class cc a) with true by done.
    by apply greedy_is_Some.
  - intros [Hw ->] Hk. by apply lazy_is_Some.
  - intros [[Hlen Hw] ->] Hk. destruct (Hk c) as [res Hres].
    exists res. apply count_Some. by exists w, s.
Qed.
End MatcherSound.

(** ** The line parser *)

Lemma re_match_sound line m rest :
  re_match pattern line = Some (m, rest) →
  ∃ host ts req status b : str,
    line = host ++ " - - [" ++ ts ++ "] " ++ [dq] ++ req ++ [dq] ++ " "
                ++ status ++ " " ++ b ++ rest
    ∧ m = [(5%nat, b); (4%nat, status); (3%nat, req); (2%nat, ts); (1%nat, host)]
    ∧ (host ≠ [] ∧ all CNonSpace host)
    ∧ all CAny ts ∧ all CAny req
    ∧ (length status = 3%nat ∧ all CDigit status)
    ∧ (b = "-" ∨ (b ≠ [] ∧ all CDigit b)).
Proof.
  unfold re_match. intros (w & s1 & c1 & -> & Hm & [= -> ->])%rmatch_sound.
  unfold pattern in Hm. cbn [matches] in Hm.
  destruct Hm as (host & ? & ? & -> & (? & [Hhost ->] & ->) &
    ? & ? & ? & -> & [-> ->] & ts & ? & ? & -> & (? & [Hts ->] & ->) &
    ? & ? & ? & -> & [-> ->] & req & ? & ? & -> & (? & [Hreq ->] & ->) &
    ? & ? & ? & -> & [-> ->] & st & ? & ? & -> & (? & [Hst ->] & ->) &
    ? & b & ? & -> & [-> ->] & ? & Hb & ->).
  exists host, ts, req, st, b. split.
  { rewrite <- !(assoc_L (++)). done. }
  split; [by destruct Hb as [[_ ->]|[_ ->]]|].
  repeat split; try (done || apply Hhost || apply Hst).
  destruct Hb as [[Hb _]|[-> _]]; [by right|by left].
Qed.

Lemma re_match_complete line : conforms line → is_Some (re_match pattern line).
Proof.
  intros (host & ts & req & st & b & rest & -> & Hhost & Hts & Hreq & Hst & Hb).
  unfold re_match.
  replace (host ++ " - - [" ++ ts ++ "] " ++ [dq] ++ req ++ [dq] ++ " "
                ++ st ++ " " ++ b ++ rest)
    with ((host ++ " - - [" ++ ts ++ ("] " ++ [dq]) ++ req ++ (dq :: " ")
                ++ st ++ " " ++ b) ++ rest)
    by (rewrite <- !(assoc_L (++)); done).
  eapply rmatch_complete; [|done].
  unfold pattern. cbn [matches].
  eexists host, _, _. split; [done|]. split; [by eexists|].
  eexists _, _, _. split; [done|]. split; [done|].
  eexists ts, _, _. split; [done|]. split; [by eexists|].
  eexists _, _, _. split; [done|]. split; [done|].
  eexists req, _, _. split; [done|]. split; [by eexists|].
  eexists _, _, _. split; [done|]. split; [done|].
  eexists st, _, _. split; [done|]. split; [by eexists|].
  eexists _, b, _. split; [done|]. split; [done|].
  eexists. split; [|done].
  destruct Hb as [->|Hb]; [by right|by left].
Qed.

Lemma py_nat_digits (s : str) :
  s ≠ [] → all CDigit s → ∃ z, py_nat s = Ok z ∧ 0 ≤ z.
Proof.
  intros Hne Hs. unfold py_nat.
  assert (forallb is_digit s = true) as ->.
  { clear Hne. induction Hs as [|a s Ha Hs IH]; [done|]. simpl in *.
    by rewrite Ha, IH. }
  rewrite bool_decide_eq_false_2 by done. cbn [negb orb].
  eexists. split; [reflexivity|].
  assert (∀ acc, 0 ≤ acc → 0 ≤ fold_left (λ acc a, 10 * acc + digit_val a) s acc)
    as Hfold; [|by apply Hfold].
  clear Hne. induction Hs as [|a s Ha Hs IH]; intros acc Hacc; simpl; [done|].
  apply IH. unfold digit_val. simpl in Ha. unfold is_digit in Ha.
  apply andb_prop in Ha as [Ha _]. apply N.leb_le in Ha. lia.
Qed.

Lemma py_int_py_nat (s : str) : all CDigit s → py_int s = py_nat s.
Proof.
  intros Hs. destruct Hs as [|a s Ha _]; [done|]. unfold py_int.
  destruct (Ascii.eqb_spec a "-") as [->|?]; [done|].
  destruct (Ascii.eqb_spec a "+") as [->|?]; [done|].
  by destruct a as [[] [] [] [] [] [] [] []].
Qed.

Lemma py_int_digits (s : str) :
  s ≠ [] → all CDigit s → ∃ z, py_int s = Ok z ∧ 0 ≤ z.
Proof. intros Hne Hs. rewrite py_int_py_nat by done. by apply py_nat_digits. Qed.

(** What [parse_log_line] returns on a line the pattern matches. *)
Lemma parse_log_line_match line m rest :
  re_match pattern line = Some (m, rest) →
  ∃ host ts req status b code bytes,
    m = [(5%nat, b); (4%nat, status); (3%nat, req); (2%nat, ts); (1%nat, host)]
    ∧ (length status = 3%nat ∧ all CDigit status) ∧ py_int status = Ok code
    ∧ (b = "-" ∧ bytes = 0 ∨ (b ≠ [] ∧ all CDigit b) ∧ py_int b = Ok bytes)
    ∧ 0 ≤ bytes
    ∧ parse_log_line line =
        Ok (Some [("host" : str, VStr host); ("timestamp" : str, VStr ts);
                  ("request" : str, VStr req);
                  ("http_reply_code" : str, VInt code);
                  ("bytes" : str, VInt bytes)]).
Proof.
  intros Hm. unfold parse_log_line. rewrite Hm.
  apply re_match_sound in Hm
    as (host & ts & req & st & b & _ & -> & _ & _ & _ & Hst & Hb).
  destruct (py_int_digits st) as (code & Hcode & _);
    [by destruct Hst as [? _]; destruct st|apply Hst|].
  cbn [group List.find fst snd Nat.eqb fmap option_fmap option_map
       int_of_group from_option].
  rewrite Hcode. cbn [mbind result_bind].
  destruct Hb as [->|Hb].
  - rewrite bool_decide_eq_true_2 by done. cbn [mbind result_bind].
    exists host, ts, req, st, "-", code, 0. repeat split; try done; try apply Hst.
    by left.
  - destruct (py_int_digits b) as (bytes & Hbytes & Hpos); [apply Hb..|].
    rewrite bool_decide_eq_false_2.
    2:{ intros [= ->]. destruct Hb as [_ Hb]. by inversion Hb. }
    rewrite Hbytes. cbn [mbind result_bind].
    exists host, ts, req, st, b, code, bytes. repeat split; try done; try apply Hst.
    by right.
Qed.

(** C4. The scenario line of the specification parses to the entry
    with host 198.0.0.1, the bracket contents as timestamp, the quote
    contents as request, status 200 and 1024 bytes. *)
Theorem parse_scenario :
  parse_log_line line1 =
    Ok (Some [("host" : str, VStr "198.0.0.1");
              ("timestamp" : str, VStr "01/Jul/1995:00:00:01 -0400");
              ("request" : str, VStr "GET /index.html HTTP/1.0");
              ("http_reply_code" : str, VInt 200);
              ("bytes" : str, VInt 1024)]).
Proof. vm_compute. reflexivity. Qed.

(** The parser rejects exactly the lines that do not have the shape. *)
Lemma parse_None_iff line : parse_log_line line = Ok None ↔ ¬ conforms line.
Proof.
  split.
  - intros Hp [[m rest] Hm]%re_match_complete.
    apply parse_log_line_match in Hm as (?&?&?&?&?&?&?&_&_&_&_&_&Hp').
    congruence.
  - intros Hn. unfold parse_log_line.
    destruct (re_match pattern line) as [[m rest]|] eqn:Hm; [|done].
    destruct Hn. apply re_match_sound in Hm
      as (host & ts & req & st & b & -> & _ & H).
    by exists host, ts, req, st, b, rest.
Qed.

(** C5. The bytes field of every entry the parser returns is a
    non-negative integer, and it is 0 whenever the byte token, the
    fifth group of the match, is the dash. *)
Theorem bytes_nonneg_dash_zero line e :
  parse_log_line line = Ok (Some e) →
  ∃ m rest tok z,
    re_match pattern line = Some (m, rest) ∧ group m 5 = Some tok
    ∧ dict_get e "bytes" = Some (VInt z) ∧ 0 ≤ z
    ∧ (tok = "-" → z = 0).
Proof.
  intros Hp. destruct (re_match pattern line) as [[m rest]|] eqn:Hm.
  - destruct (parse_log_line_match _ _ _ Hm)
      as (host & ts & req & st & b & code & bytes & -> & _ & _ & Hb & Hpos & Hp').
    rewrite Hp' in Hp. injection Hp as <-.
    eexists _, rest, b, bytes. repeat split; [done..|].
    intros ->. destruct Hb as [[_ ->]|[[_ Hb] _]]; [done|].
    by inversion Hb.
  - unfold parse_log_line in Hp. by rewrite Hm in Hp.
Qed.

Lemma bytes_nonneg_dash_zero_witness :
  ∃ e, parse_log_line line_dash = Ok (Some e) ∧
  ∃ m rest tok z,
    re_match pattern line_dash = Some (m, rest) ∧ group m 5 = Some tok
    ∧ dict_get e "bytes" = Some (VInt z) ∧ 0 ≤ z
    ∧ (tok = "-" → z = 0).
Proof.
  eexists. split; [vm_compute; reflexivity|].
  apply (bytes_nonneg_dash_zero line_dash). vm_compute. reflexivity.
Defined.

(** C6. A line that does not have the expected shape yields no entry,
    leaves the accumulated list as it was, and the loop goes on with the
    lines after it as if the line had not been there. *)
Theorem mismatch_dropped line parsed_data before after :
  ¬ conforms line →
  parse_log_line line = Ok None
  ∧ ingest_line parsed_data line = Ok parsed_data
  ∧ ingest parsed_data (before ++ line :: after)
    = ingest parsed_data (before ++ after).
Proof.
  intros Hp%parse_None_iff. split; [done|].
  assert (∀ pd, ingest_line pd line = Ok pd) as Hstep.
  { intros pd. unfold ingest_line. by rewrite Hp. }
  split; [done|]. revert parsed_data.
  induction before as [|l before IH]; intros pd; simpl.
  - by rewrite Hstep.
  - destruct (ingest_line pd l) as [pd'|err]; simpl; [apply IH|done].
Qed.

Lemma mismatch_dropped_witness :
  ¬ conforms line_bad ∧
  parse_log_line line_bad = Ok None
  ∧ ingest_line [] line_bad = Ok []
  ∧ ingest [] ([line1] ++ line_bad :: [line_dash]) = ingest [] ([line1] ++ [line_dash]).
Proof.
  assert (¬ conforms line_bad) as Hn.
  { intros [x Hx]%re_match_complete. vm_compute in Hx. discriminate. }
  split; [exact Hn|]. exact (mismatch_dropped line_bad [] [line1] [line_dash] Hn).
Defined.



(** ** Characters after the match

    [re.match] leaves the rest of the line alone; what the match itself
    is, however, is decided by the backtracking order. The tails of the
    pattern are followed from the byte count back to the host to see
    what appending text to a line can change. *)

Lemma app_eq_app_le {X} (l1 l2 l3 l4 : list X) :
  l1 ++ l2 = l3 ++ l4 → (length l3 ≤ length l1)%nat →
  ∃ l, l1 = l3 ++ l ∧ l4 = l ++ l2.
Proof.
  revert l1. induction l3 as [|x l3 IH]; intros l1 Heq Hlen; simpl in *.
  - by exists l1.
  - destruct l1 as [|y l1]; simpl in *; [lia|].
    injection Heq as -> Heq. destruct (IH l1 Heq) as (l & -> & ->); [lia|].
    by exists l.
Qed.

Lemma pattern_tails : pattern = RGroup 1 (RPlus CNonSpace) ⨾ tail_marker.
Proof. reflexivity. Qed.

Lemma re_match_run s : re_match pattern s = run pattern s [].
Proof. reflexivity. Qed.

Lemma run_lit l r s c res :
  run (RLit l ⨾ r) s c = Some res ↔ ∃ t, s = l ++ t ∧ run r t c = Some res.
Proof.
  unfold run. cbn [rmatch]. destruct (strip_prefix l s) as [t|] eqn:Hp.
  - apply strip_prefix_Some in Hp as ->. split; [by exists t|].
    by intros (t' & ->%(inj (app l)) & Hr).
  - split; [done|]. intros (t & -> & _). by rewrite strip_prefix_app in Hp.
Qed.

Lemma run_lazy n cc r s c res :
  run (RGroup n (RLazy cc) ⨾ r) s c = Some res ↔
  ∃ w t, s = w ++ t ∧ all cc w ∧ run r t ((n, w) :: c) = Some res ∧
    ∀ w' t', s = w' ++ t' → (length w' < length w)%nat →
             run r t' ((n, w') :: c) = None.
Proof.
  unfold run. cbn [rmatch]. rewrite lazy_Some. split.
  - intros (w & t & -> & Hw & Hk & Hmin). rewrite consumed_app in Hk.
    exists w, t. repeat split; [done..|]. intros w' t' Heq Hlen.
    specialize (Hmin w' t' Heq Hlen). by rewrite Heq, consumed_app in Hmin.
  - intros (w & t & -> & Hw & Hk & Hmin). exists w, t.
    rewrite consumed_app. repeat split; [done..|]. intros w' t' Heq Hlen.
    rewrite Heq, consumed_app. by apply Hmin.
Qed.

Lemma run_lazy_None n cc r s c :
  run (RGroup n (RLazy cc) ⨾ r) s c = None ↔
  ∀ w t, s = w ++ t → all cc w → run r t ((n, w) :: c) = None.
Proof.
  unfold run. cbn [rmatch]. rewrite lazy_None. split.
  - intros H w t -> Hw. specialize (H w t eq_refl Hw).
    by rewrite consumed_app in H.
  - intros H w t -> Hw. rewrite consumed_app. by apply H.
Qed.

(** The byte count is the longest run of digits, or the dash. *)
Lemma run_bytes s c m rest :
  run tail_bytes s c = Some (m, rest) ↔
  ∃ b, s = b ++ rest ∧ m = (5%nat, b) :: c
       ∧ (b = "-" ∨ (b ≠ [] ∧ all CDigit b ∧ head_digit rest = false)).
Proof.
  unfold run, tail_bytes, final. cbn [rmatch]. split.
  - destruct s as [|a s]; [done|]. destruct (in_class CDigit a) eqn:Ha.
    + destruct (greedy _ _ _) as [res|] eqn:Hg.
      * intros [= ->]. apply greedy_Some in Hg as (w & t & -> & Hw & Hk & Hmax).
        change (a :: w ++ t) with ((a :: w) ++ t) in Hk.
        rewrite consumed_app in Hk. injection Hk as <- <-.
        exists (a :: w). split; [done|]. split; [done|]. right.
        split; [done|]. split; [by constructor|].
        destruct t as [|d t]; [done|]. simpl.
        destruct (is_digit d) eqn:Hd; [|done].
        specialize (Hmax (w ++ [d]) t). rewrite <- (assoc_L (++)) in Hmax.
        rewrite length_app in Hmax. simpl in Hmax.
        discriminate Hmax; [done| |lia].
        apply Forall_app. split; [done|]. by constructor.
      * by pose proof (proj1 (greedy_None _ _ _) Hg [] s eq_refl (Forall_nil_2 _)).
    + destruct (strip_prefix "-" (a :: s)) as [t|] eqn:Hp; [|done].
      apply strip_prefix_Some in Hp. rewrite Hp. rewrite consumed_app.
      intros [= <- <-]. exists "-". split; [done|]. split; [done|]. by left.
  - intros (b & -> & -> & [->|(Hne & Hb & Hrest)]).
    + by rewrite strip_prefix_app, consumed_app.
    + destruct b as [|a w]; [done|]. inversion Hb; subst. simpl.
      replace (is_digit a) with true by done.
      replace (greedy _ _ _) with (Some ((5%nat, a :: w) :: c, rest)); [done|].
      symmetry. apply greedy_Some. exists w, rest.
      change (a :: w ++ rest) with ((a :: w) ++ rest). rewrite consumed_app.
      repeat split; [done|]. intros w' t' Heq Hw' Hlen. exfalso.
      symmetry in Heq. apply app_eq_app_le in Heq as (l & -> & ->); [|lia].
      destruct l as [|d l]; [rewrite length_app in Hlen; simpl in Hlen; lia|].
      apply Forall_app in Hw' as [_ Hd]. inversion Hd; subst.
      simpl in *. congruence.
Qed.

Lemma run_status s c res :
  run tail_status s c = Some res ↔
  ∃ st t, s = st ++ " " ++ t ∧ (length st = 3%nat ∧ all CDigit st)
          ∧ run tail_bytes t ((4%nat, st) :: c) = Some res.
Proof.
  unfold run, tail_status. cbn [rmatch]. rewrite count_Some. split.
  - intros (w & s1 & -> & Hlen & Hw & Hk).
    destruct (strip_prefix " " s1) as [t|] eqn:Hp; [|done].
    apply strip_prefix_Some in Hp as ->. rewrite consumed_app in Hk.
    by exists w, t.
  - intros (st & t & -> & [Hlen Hst] & Hk). exists st, (" " ++ t).
    rewrite strip_prefix_app, consumed_app. done.
Qed.

Lemma closes_length s : closes s = true → (7 ≤ length s)%nat.
Proof.
  destruct s as [|? [|? [|? [|? [|? [|? [|? s]]]]]]]; simpl; try done. lia.
Qed.

Lemma closes_app s E : (7 ≤ length s)%nat → closes (s ++ E) = closes s.
Proof.
  destruct s as [|? [|? [|? [|? [|? [|? [|? s]]]]]]]; simpl; try lia. done.
Qed.

Lemma quote_is_Some s c : is_Some (run tail_quote s c) ↔ closes s = true.
Proof.
  split.
  - intros [res (w & s1 & c1 & -> & Hm & _)%rmatch_sound].
    unfold tail_quote, tail_status, tail_bytes in Hm. cbn [matches] in Hm.
    destruct Hm as (? & ? & ? & -> & [-> ->] & st & ? & ? & -> &
      (? & [[Hlen Hst] ->] & ->) & ? & b & ? & -> & [-> ->] & ? & Hb & ->).
    destruct st as [|d1 [|d2 [|d3 [|]]]]; try done.
    inversion Hst as [|? ? Hd1 Hst1]; subst.
    inversion Hst1 as [|? ? Hd2 Hst2]; subst.
    inversion Hst2 as [|? ? Hd3 _]; subst. simpl in Hd1, Hd2, Hd3.
    destruct Hb as [[[Hne Hb] _]|[-> _]].
    + destruct b as [|y b]; [done|]. inversion Hb as [|? ? Hx _]; subst.
      simpl in Hx. simpl. by rewrite Hd1, Hd2, Hd3, Hx.
    + simpl. by rewrite Hd1, Hd2, Hd3.
  - destruct s as [|q [|b1 [|d1 [|d2 [|d3 [|b2 [|x s]]]]]]]; simpl; try done.
    intros H. repeat (apply andb_prop in H as [H ?]).
    apply Ascii.eqb_eq in H as ->.
    repeat match goal with
           | H : Ascii.eqb _ _ = true |- _ => apply Ascii.eqb_eq in H as ->
           end.
    change (is_Some (run tail_quote
      (((dq :: " ") ++ [d1; d2; d3] ++ " " ++ [x]) ++ s) c)).
    eapply rmatch_complete; [|done].
    unfold tail_quote, tail_status, tail_bytes. cbn [matches].
    eexists _, _, _. split; [done|]. split; [done|].
    eexists [d1; d2; d3], _, _. split; [done|]. split.
    { eexists. split; [|done]. split; [|done]. split; [done|].
      repeat constructor; done. }
    eexists _, [x], _. split; [done|]. split; [done|].
    eexists. split; [|done].
    match goal with H : _ || _ = true |- _ => apply orb_prop in H as [Hx|Hx] end.
    + left. split; [|done]. split; [done|]. by repeat constructor.
    + right. apply Ascii.eqb_eq in Hx as ->. done.
Qed.

Section Extension.
Variable E : str.

Lemma ext_bytes s c res :
  run tail_bytes s c = Some res →
  ∃ res', run tail_bytes (s ++ E) c = Some res' ∧ extends E res res'.
Proof.
  destruct res as [m rest]. intros (b & -> & -> & Hb)%run_bytes.
  rewrite <- (assoc_L (++)).
  destruct Hb as [->|(Hne & Hb & Hrest)].
  - exists ((5%nat, "-" : str) :: c, rest ++ E). split.
    + apply run_bytes. exists "-". split; [done|]. split; [done|]. by left.
    + by exists "-", "-", c.
  - destruct (head_digit (rest ++ E)) eqn:Hd.
    + assert (is_Some (run tail_bytes (b ++ rest ++ E) c)) as [[m' rest'] Hr].
      { eapply rmatch_complete; [|done]. unfold tail_bytes. cbn [matches].
        eexists. split; [|done]. by left. }
      exists (m', rest'). split; [done|].
      apply run_bytes in Hr as (b' & _ & -> & _).
      exists b, b', c. split; [done|]. split; [done|]. intros HE.
      destruct rest; simpl in *; congruence.
    + exists ((5%nat, b) :: c, rest ++ E). split.
      * apply run_bytes. exists b. split; [done|]. split; [done|]. by right.
      * by exists b, b, c.
Qed.

Lemma ext_status s c res :
  run tail_status s c = Some res →
  ∃ res', run tail_status (s ++ E) c = Some res' ∧ extends E res res'.
Proof.
  intros (st & t & -> & Hst & Hr)%run_status.
  destruct (ext_bytes _ _ _ Hr) as (res' & Hr' & Hext).
  exists res'. split; [|done]. apply run_status. exists st, (t ++ E).
  by rewrite <- !(assoc_L (++)).
Qed.

Lemma ext_quote s c res :
  run tail_quote s c = Some res →
  ∃ res', run tail_quote (s ++ E) c = Some res' ∧ extends E res res'.
Proof.
  intros (t & -> & Hr)%run_lit.
  destruct (ext_status _ _ _ Hr) as (res' & Hr' & Hext).
  exists res'. split; [|done]. apply run_lit. exists (t ++ E).
  by rewrite <- !(assoc_L (++)).
Qed.

(** The request ends at the first place where the seven closing
    characters stand; text appended to the line cannot bring that
    place forward. *)
Lemma ext_request s c res :
  run tail_request s c = Some res →
  ∃ res', run tail_request (s ++ E) c = Some res' ∧ extends E res res'.
Proof.
  intros (w & t & -> & Hw & Hr & Hmin)%run_lazy.
  destruct (ext_quote _ _ _ Hr) as (res' & Hr' & Hext).
  exists res'. split; [|done]. apply run_lazy. exists w, (t ++ E).
  rewrite <- (assoc_L (++)). repeat split; [done..|].
  intros w' t' Heq Hlen.
  apply app_eq_app_le in Heq as (l & -> & ->); [|lia].
  specialize (Hmin w' (l ++ t)). rewrite <- (assoc_L (++)) in Hmin.
  specialize (Hmin eq_refl Hlen).
  destruct (run tail_quote (l ++ t ++ E) _) as [res2|] eqn:Hx; [exfalso|done].
  assert (closes (l ++ t ++ E) = true) as Hc.
  { eapply quote_is_Some. by eexists. }
  assert (closes t = true) as Ht.
  { eapply quote_is_Some. by eexists. }
  apply closes_length in Ht. rewrite (assoc_L (++)), closes_app in Hc.
  2:{ rewrite length_app. lia. }
  apply (quote_is_Some _ ((3%nat, w') :: c)) in Hc as [? Hc]. congruence.
Qed.

Lemma request_is_Some s c :
  is_Some (run tail_request s c) ↔
  ∃ r v, s = r ++ v ∧ all CAny r ∧ closes v = true.
Proof.
  split.
  - intros [res (w & t & -> & Hw & Hr & _)%run_lazy]. exists w, t.
    repeat split; [done|]. eapply quote_is_Some. by eexists.
  - intros (r & v & -> & Hr & Hv).
    destruct (run tail_request (r ++ v) c) as [res|] eqn:Hx; [done|].
    apply (quote_is_Some _ ((3%nat, r) :: c)) in Hv as [res Hv].
    rewrite (proj1 (run_lazy_None _ _ _ _ _) Hx r v) in Hv; done.
Qed.

Lemma ext_bracket s c res :
  run tail_bracket s c = Some res →
  ∃ res', run tail_bracket (s ++ E) c = Some res' ∧ extends E res res'.
Proof.
  intros (t & -> & Hr)%run_lit.
  destruct (ext_request _ _ _ Hr) as (res' & Hr' & Hext).
  exists res'. split; [|done]. apply run_lit. exists (t ++ E).
  by rewrite <- !(assoc_L (++)).
Qed.

(** The timestamp ends at the first bracket, blank and quote after
    which the rest of the pattern matches. A shorter timestamp before
    the same three characters would have matched the line itself,
    with the request running up to the same closing characters, so
    appended text cannot make the timestamp shorter. *)
Lemma ext_timestamp s c res :
  run tail_timestamp s c = Some res →
  ∃ res', run tail_timestamp (s ++ E) c = Some res' ∧ extends E res res'.
Proof.
  intros (w & t & -> & Hw & Hr & Hmin)%run_lazy.
  destruct (ext_bracket _ _ _ Hr) as (res' & Hr' & Hext).
  exists res'. split; [|done]. apply run_lazy. exists w, (t ++ E).
  rewrite <- (assoc_L (++)). repeat split; [done..|].
  intros w' t' Heq Hlen.
  apply app_eq_app_le in Heq as (l & -> & ->); [|lia].
  specialize (Hmin w' (l ++ t)). rewrite <- (assoc_L (++)) in Hmin.
  specialize (Hmin eq_refl Hlen).
  destruct (run tail_bracket (l ++ t ++ E) _) as [res2|] eqn:Hx; [exfalso|done].
  apply run_lit in Hx as (u & Hu & _).
  apply run_lit in Hr as (t2 & -> & Hr).
  assert (is_Some (run tail_request t2 ((2%nat, w' ++ l) :: c))) as Ht2
    by by eexists.
  apply request_is_Some in Ht2 as (r & v & -> & Hr2 & Hv).
  apply Forall_app in Hw as [_ Hl].
  assert (is_Some (run tail_bracket (l ++ ("] " ++ [dq]) ++ r ++ v)
                     ((2%nat, w') :: c))) as [? Hbad]; [|congruence].
  destruct l as [|x [|y [|z l]]]; simpl in Hu, Hlen.
  - rewrite length_app in Hlen. simpl in Hlen. lia.
  - discriminate Hu.
  - discriminate Hu.
  - injection Hu as -> -> -> _.
    assert (is_Some (run tail_request ((l ++ ("] " ++ [dq]) ++ r) ++ v)
                       ((2%nat, w') :: c))) as [res3 Hres3].
    { apply request_is_Some. eexists _, v. split; [done|]. split; [|done].
      inversion Hl as [|? ? _ Hl1]; subst.
      inversion Hl1 as [|? ? _ Hl2]; subst.
      inversion Hl2 as [|? ? _ Hl3]; subst.
      apply Forall_app. split; [done|]. apply Forall_app. split; [|done].
      by repeat constructor. }
    exists res3. apply run_lit. eexists. split; [|exact Hres3].
    by rewrite <- !(assoc_L (++)).
Qed.

Lemma ext_marker s c res :
  run tail_marker s c = Some res →
  ∃ res', run tail_marker (s ++ E) c = Some res' ∧ extends E res res'.
Proof.
  intros (t & -> & Hr)%run_lit.
  destruct (ext_timestamp _ _ _ Hr) as (res' & Hr' & Hext).
  exists res'. split; [|done]. apply run_lit. exists (t ++ E).
  by rewrite <- !(assoc_L (++)).
Qed.

(** The host is the run of non-blank characters up to the blank that
    starts the marker, whatever follows the match. *)
Lemma ext_pattern s c res :
  run pattern s c = Some res →
  ∃ res', run pattern (s ++ E) c = Some res' ∧ extends E res res'.
Proof.
  rewrite pattern_tails. unfold run. cbn [rmatch].
  destruct s as [|a s]; [done|]. simpl app.
  destruct (in_class CNonSpace a) eqn:Ha; [|done].
  intros (w & t & -> & Hw & Hk & Hmax)%greedy_Some.
  change (a :: w ++ t) with ((a :: w) ++ t) in Hk.
  rewrite consumed_app in Hk.
  destruct (ext_marker _ _ _ Hk) as (res' & Hr' & Hext).
  exists res'. split; [|done]. rewrite Ha.
  apply greedy_Some. exists w, (t ++ E).
  rewrite <- (assoc_L (++)). split; [done|]. split; [done|]. split.
  { change (a :: w ++ t ++ E) with ((a :: w) ++ t ++ E).
    by rewrite consumed_app. }
  intros w' t' Heq Hw' Hlen. exfalso.
  apply run_lit in Hk as (t2 & -> & _). symmetry in Heq.
  apply app_eq_app_le in Heq as (l & -> & Heq); [|lia].
  destruct l as [|x l]; [rewrite length_app in Hlen; simpl in Hlen; lia|].
  simpl in Heq. injection Heq as <- _.
  apply Forall_app in Hw' as [_ Hx]. by inversion Hx.
Qed.
End Extension.





(** ** The fan-out writer on what the ingestion loop wrote *)

(** The entries the parser builds carry the status under
    [http_reply_code] and the byte count under [bytes]; the writer asks
    for [status] and [bytes_sent]. On every parsed entry the loop body
    therefore stops with [KeyError] before the insert, the three
    key-value writes done. *)
Lemma parsed_entry_key_error line entry st :
  parse_log_line line = Ok (Some entry) →
  ∃ st', load_entry entry st = (st', Raise (KeyError "status"))
         ∧ nasa_logs st' = nasa_logs st
         ∧ nasa_logs_id_seq st' = nasa_logs_id_seq st.
Proof.
  intros Hp. destruct (re_match pattern line) as [[m rest]|] eqn:Hm.
  2:{ unfold parse_log_line in Hp. by rewrite Hm in Hp. }
  destruct (parse_log_line_match _ _ _ Hm)
    as (host & ts & req & stt & b & code & bytes & _ & _ & _ & _ & _ & He).
  rewrite He in Hp. injection Hp as <-.
  unfold load_entry, dedup_key, getitem. eexists. split; [reflexivity|].
  split; reflexivity.
Qed.

(** C1: what the code does. The scenario line is parsed, dumped and
    loaded; the writer stops with [KeyError: 'status'] at the arguments
    of the insert, and the table, created empty, has no row. *)
Theorem relational_write_key_error :
  ∃ st',
    ingest [] [line1] = Ok [entry1]
    ∧ upload (json_dump [entry1]) init = (st', Raise (KeyError "status"))
    ∧ nasa_logs st' = Some [] ∧ committed st' = Some [].
Proof.
  eexists. split; [vm_compute; reflexivity|].
  split; [vm_compute; reflexivity|]. split; reflexivity.
Qed.

(** C7: what the code does. Two lines with the same host and timestamp
    are parsed, dumped and loaded. The writer stops on the first entry,
    after its key-value writes: the key holds the first entry in the
    three stores, and the second, last entry is never written. *)
Theorem second_entry_not_written :
  ∃ st' key h,
    ingest [] [lineA; lineB] = Ok [entryA; entryB]
    ∧ dedup_key entryA = Ok key ∧ dedup_key entryB = Ok key
    ∧ upload (json_dump [entryA; entryB]) init = (st', Raise (KeyError "status"))
    ∧ redis_strings st' !! key = Some (json_dumps entryA)
    ∧ memcached st' !! key = Some (json_dumps entryA)
    ∧ redis_hashes st' !! key = Some h
    ∧ h !! ("request" : str) = Some ("GET /a HTTP/1.0" : str)
    ∧ json_dumps entryA ≠ json_dumps entryB.
Proof.
  eexists _, _, _. split; [vm_compute; reflexivity|].
  split; [vm_compute; reflexivity|]. split; [vm_compute; reflexivity|].
  split; [vm_compute; reflexivity|].
  split; [vm_compute; reflexivity|]. split; [vm_compute; reflexivity|].
  split; [vm_compute; reflexivity|]. split; [vm_compute; reflexivity|].
  vm_compute. discriminate.
Qed.

(** ** The deduplication key *)

Lemma span_space (s : str) :
  ∃ w s', s = w ++ s' ∧ all CSpace w ∧ head_space s' = false.
Proof.
  induction s as [|a s (w & s' & -> & Hw & Hs')].
  - by exists [], [].
  - destruct (is_space a) eqn:Ha.
    + exists (a :: w), s'. repeat split; [by constructor|done].
    + exists [], (a :: w ++ s'). repeat split; [constructor|done].
Qed.

Lemma re_match_spaces (w s : str) :
  w ≠ [] → all CSpace w → head_space s = false →
  re_match (RPlus CSpace) (w ++ s) = Some ([], s).
Proof.
  intros Hne Hw Hs. destruct w as [|a w]; [done|]. inversion Hw; subst.
  unfold re_match. simpl. replace (is_space a) with true by done.
  apply greedy_Some. exists w, s. repeat split; [done|].
  intros w' s' Heq Hw' Hlen. exfalso. symmetry in Heq.
  apply app_eq_app_le in Heq as (l & -> & ->); [|lia].
  destruct l as [|d l]; [rewrite length_app in Hlen; simpl in Hlen; lia|].
  apply Forall_app in Hw' as [_ Hd]. inversion Hd; subst.
  simpl in *. congruence.
Qed.

Lemma re_sub_go_skip r repl (w s : str) :
  re_sub_go r repl (length w) (w ++ s) = re_sub_go r repl 0 s.
Proof.
  induction w as [|a w IH]; simpl; [|done].
  by destruct s.
Qed.

Lemma sanitize_key_keep a s :
  is_space a = false → sanitize_key (a :: s) = a :: sanitize_key s.
Proof.
  intros Ha. unfold sanitize_key, re_sub. cbn [re_sub_go].
  unfold re_match. cbn [rmatch in_class]. by rewrite Ha.
Qed.

Lemma sanitize_key_run (w s : str) :
  w ≠ [] → all CSpace w → head_space s = false →
  sanitize_key (w ++ s) = "_"%char :: sanitize_key s.
Proof.
  intros Hne Hw Hs. unfold sanitize_key, re_sub.
  pose proof (re_match_spaces w s Hne Hw Hs) as Hm.
  destruct w as [|a w]; [done|]. cbn [app re_sub_go]. cbn [app] in Hm.
  rewrite Hm. cbn [length]. rewrite length_app.
  replace (S (length w + length s) - length s)%nat with (S (length w)) by lia.
  by rewrite re_sub_go_skip.
Qed.

Lemma sanitize_key_runs_replaced key : runs_replaced key (sanitize_key key).
Proof.
  remember (length key) as n eqn:Hn. revert key Hn.
  induction n as [n IH] using lt_wf_ind. intros key ->.
  destruct key as [|a s]; [constructor|].
  destruct (is_space a) eqn:Ha.
  - destruct (span_space s) as (w & s' & -> & Hw & Hs').
    change (a :: w ++ s') with ((a :: w) ++ s').
    rewrite sanitize_key_run; [|done|by constructor|done].
    constructor; [done|by constructor|done|].
    eapply IH; [|done]. simpl. rewrite length_app. lia.
  - rewrite sanitize_key_keep by done. constructor; [done|].
    eapply IH; [|done]. simpl. lia.
Qed.

(** The relation leaves no choice: its only result for a text is the
    sanitized text. *)
Lemma runs_replaced_sanitize s t : runs_replaced s t → t = sanitize_key s.
Proof.
  induction 1 as [|a s t Ha _ ->|w s t Hne Hw Hs _ ->].
  - done.
  - by rewrite sanitize_key_keep.
  - by rewrite sanitize_key_run.
Qed.

(** C3, as the code has it. The key under which an entry is written to
    the key-value stores is the host, a colon and the timestamp, with
    every maximal run of whitespace replaced by one underscore; any
    entry with the same host and timestamp gets the same key, whatever
    its other fields. *)
Theorem dedup_key_spec (entry : dict) (host ts : str) :
  dict_get entry "host" = Some (VStr host) →
  dict_get entry "timestamp" = Some (VStr ts) →
  ∃ key,
    dedup_key entry = Ok key
    ∧ runs_replaced (host ++ ":" ++ ts) key
    ∧ (∀ key', runs_replaced (host ++ ":" ++ ts) key' → key' = key)
    ∧ ∀ entry' : dict,
        dict_get entry' "host" = Some (VStr host) →
        dict_get entry' "timestamp" = Some (VStr ts) →
        dedup_key entry' = Ok key.
Proof.
  intros Hh Ht. exists (sanitize_key (host ++ ":" ++ ts)).
  assert (∀ e : dict, dict_get e "host" = Some (VStr host) →
            dict_get e "timestamp" = Some (VStr ts) →
            dedup_key e = Ok (sanitize_key (host ++ ":" ++ ts))) as Hkey.
  { intros e He1 He2. unfold dedup_key, getitem. by rewrite He1, He2. }
  split; [by apply Hkey|]. split; [apply sanitize_key_runs_replaced|].
  split; [|done]. intros key' Hk. by apply runs_replaced_sanitize.
Qed.

Lemma dedup_key_spec_witness :
  ∃ key,
    dedup_key entryA = Ok key
    ∧ runs_replaced ("h.example.com" ++ ":" ++ "01/Jul/1995:00:00:01 -0400") key
    ∧ (∀ key', runs_replaced
                 ("h.example.com" ++ ":" ++ "01/Jul/1995:00:00:01 -0400") key' →
               key' = key)
    ∧ ∀ entry' : dict,
        dict_get entry' "host" = Some (VStr "h.example.com") →
        dict_get entry' "timestamp" = Some (VStr "01/Jul/1995:00:00:01 -0400") →
        dedup_key entry' = Ok key.
Proof.
  apply (dedup_key_spec entryA "h.example.com" "01/Jul/1995:00:00:01 -0400");
    reflexivity.
Defined.

(** C3, as stated, fails: the key is not the host directly followed by
    the timestamp, a colon stands between them. *)
Lemma dedup_key_has_colon :
  dedup_key entry1 = Ok ("198.0.0.1:01/Jul/1995:00:00:01_-0400" : str)
  ∧ sanitize_key ("198.0.0.1" ++ "01/Jul/1995:00:00:01 -0400")
    = "198.0.0.101/Jul/1995:00:00:01_-0400"
  ∧ dedup_key entry1
    ≠ Ok (sanitize_key ("198.0.0.1" ++ "01/Jul/1995:00:00:01 -0400")).
Proof.
  split; [vm_compute; reflexivity|]. split; [vm_compute; reflexivity|].
  vm_compute. discriminate.
Qed.

(** ** The relational store *)








(** ** The exchange form read back *)

Lemma result_bind_Ok {A B} (m : result A) (f : A → result B) a :
  m = Ok a → m ≫= f = f a.
Proof. by intros ->. Qed.

(** One escaped character is read back as the character. *)
Lemma scanstring_escape a rest :
  scanstring (escape a ++ rest) = '(x, r) ← scanstring rest; Ok (a :: x, r).
Proof. destruct a as [[] [] [] [] [] [] [] []]; reflexivity. Qed.

Lemma scanstring_encode s rest :
  scanstring (concat (map escape s) ++ dq :: rest) = Ok (s, rest).
Proof.
  induction s as [|a s IH]; [done|]. cbn [map concat].
  rewrite <- (assoc_L (++)), scanstring_escape, IH. done.
Qed.

Lemma encode_str_app s rest :
  encode_str s ++ rest = dq :: concat (map escape s) ++ dq :: rest.
Proof. unfold encode_str. simpl. by rewrite <- (assoc_L (++)). Qed.

(** *** Integers *)

Lemma digit_char_spec d :
  0 ≤ d < 10 →
  is_digit (digit_char d) = true ∧ digit_val (digit_char d) = d
  ∧ (0 < d → digit_char d ≠ "0"%char).
Proof.
  intros Hd.
  assert (d = 0 ∨ d = 1 ∨ d = 2 ∨ d = 3 ∨ d = 4 ∨ d = 5 ∨ d = 6 ∨ d = 7
          ∨ d = 8 ∨ d = 9) as Hcases by lia.
  repeat (destruct Hcases as [->|Hcases]); try subst d;
    (split; [done|]; split; [done|]; intros; (lia || done)).
Qed.

Lemma digits_spec fuel n acc :
  0 ≤ n < 10 ^ Z.of_nat fuel → (0 < fuel)%nat →
  ∃ ds, digits fuel n acc = ds ++ acc
        ∧ all CDigit ds ∧ horner ds 0 = n
        ∧ (0 < n → ∃ a ds', ds = a :: ds' ∧ a ≠ "0"%char)
        ∧ (n = 0 → ds = "0").
Proof.
  revert n acc. induction fuel as [|fuel IH]; intros n acc Hn Hfuel; [lia|].
  cbn [digits]. destruct (Z.ltb_spec n 10) as [Hlt|Hge].
  - destruct (digit_char_spec n) as (Hd & Hv & Hz); [lia|].
    rewrite Z.mod_small by lia.
    exists [digit_char n]. repeat split.
    + by repeat constructor.
    + simpl. lia.
    + intros Hpos. eexists _, _. split; [done|]. by apply Hz.
    + by intros ->.
  - assert (0 < fuel)%nat as Hfuel'.
    { destruct fuel; [|lia]. simpl in Hn. lia. }
    destruct (IH (n / 10) (digit_char (n mod 10) :: acc)) as
      (ds & -> & Hds & Hval & Hpos & _); [|done|].
    { split; [apply Z.div_pos; lia|].
      apply Z.div_lt_upper_bound; [lia|].
      rewrite Nat2Z.inj_succ, Z.pow_succ_r in Hn by lia. lia. }
    destruct (digit_char_spec (n mod 10)) as (Hd & Hv & _).
    { apply Z.mod_pos_bound. lia. }
    exists (ds ++ [digit_char (n mod 10)]). repeat split.
    + by rewrite <- (assoc_L (++)).
    + apply Forall_app. split; [done|]. by repeat constructor.
    + rewrite fold_left_app. simpl. rewrite Hval, Hv.
      pose proof (Z.div_mod n 10). lia.
    + intros _. destruct Hpos as (a & ds' & -> & Ha).
      { apply Z.div_str_pos. lia. }
      by eexists _, _.
    + lia.
Qed.

Lemma repr_nat_spec n :
  0 ≤ n →
  ∃ ds, repr_nat n = ds
        ∧ all CDigit ds ∧ horner ds 0 = n
        ∧ (0 < n → ∃ a ds', ds = a :: ds' ∧ a ≠ "0"%char)
        ∧ (n = 0 → ds = "0").
Proof.
  intros Hn. unfold repr_nat.
  destruct (digits_spec (S (Z.to_nat (Z.log2 n))) n []) as (ds & Hds & H);
    [|lia|].
  - split; [done|]. rewrite Nat2Z.inj_succ, Z2Nat.id by apply Z.log2_nonneg.
    destruct (decide (n = 0)) as [->|Hne]; [done|].
    pose proof (Z.log2_spec n ltac:(lia)) as [_ Hlt].
    eapply Z.lt_le_trans; [exact Hlt|].
    apply Z.pow_le_mono_l. lia.
  - exists ds. rewrite Hds, (right_id_L [] (++)). done.
Qed.

Lemma py_nat_horner ds :
  ds ≠ [] → all CDigit ds → py_nat ds = Ok (horner ds 0).
Proof.
  intros Hne Hds. unfold py_nat.
  assert (forallb is_digit ds = true) as ->.
  { clear Hne. induction Hds as [|a s Ha Hs IH]; [done|]. simpl in *.
    by rewrite Ha, IH. }
  by rewrite bool_decide_eq_false_2.
Qed.

Lemma span_digits_app ds rest :
  all CDigit ds → head_digit rest = false → span_digits (ds ++ rest) = (ds, rest).
Proof.
  intros Hds Hrest. induction Hds as [|a ds Ha _ IH]; cbn [app span_digits].
  - destruct rest as [|c rest]; [done|]. cbn [head_digit] in Hrest.
    cbn [span_digits]. by rewrite Hrest.
  - cbn [in_class] in Ha. by rewrite Ha, IH.
Qed.

Lemma scan_unsigned_repr sign n rest :
  0 ≤ n → head_digit rest = false → float_mark rest = false →
  scan_unsigned sign (repr_nat n ++ rest)
  = z ← py_int (sign ++ repr_nat n); Ok (z, rest).
Proof.
  intros Hn Hhd Hfm.
  destruct (repr_nat_spec n Hn) as (ds & -> & Hds & _ & Hpos & Hzero).
  destruct Hds as [|a ds Ha Hds].
  { destruct (decide (n = 0)) as [->|Hne]; [by specialize (Hzero eq_refl)|].
    destruct Hpos as (? & ? & ? & _); [lia|done]. }
  cbn [in_class] in Ha. unfold scan_unsigned. cbn [app]. rewrite Ha. cbn [negb].
  destruct (Ascii.eqb_spec a "0") as [->|Hne].
  - assert (ds = []) as ->.
    { destruct (decide (n = 0)) as [->|Hne]; [by injection (Hzero eq_refl)|].
      destruct Hpos as (? & ? & [= <- _] & Hbad); [lia|done]. }
    cbn [app]. by rewrite Hfm.
  - rewrite span_digits_app by done. by rewrite Hfm.
Qed.

Lemma scan_int_repr z rest :
  head_digit rest = false → float_mark rest = false →
  scan_int (repr z ++ rest) = Ok (z, rest).
Proof.
  intros Hhd Hfm. unfold repr. destruct (Z.ltb_spec z 0) as [Hneg|Hpos].
  - cbn [app scan_int]. change (Ascii.eqb "-" "-") with true. cbv iota.
    rewrite scan_unsigned_repr by (lia || done).
    destruct (repr_nat_spec (- z)) as (ds & -> & Hds & Hval & Hp & _); [lia|].
    destruct Hp as (a & ds' & -> & _); [lia|].
    change (py_int (["-"%char] ++ a :: ds'))
      with (z' ← py_nat (a :: ds'); Ok (- z')).
    rewrite py_nat_horner by done. rewrite Hval. cbn. do 2 f_equal. lia.
  - pose proof (scan_unsigned_repr [] z rest Hpos Hhd Hfm) as Hu.
    destruct (repr_nat_spec z Hpos) as (ds & Hds & Hdig & Hval & Hp & Hz).
    rewrite Hds in *. destruct Hdig as [|a ds' Ha Hdig].
    { destruct (decide (z = 0)) as [->|Hne]; [by specialize (Hz eq_refl)|].
      destruct Hp as (? & ? & ? & _); [lia|done]. }
    cbn [in_class] in Ha. cbn [app scan_int].
    assert (Ascii.eqb a "-" = false) as ->.
    { by destruct a as [[] [] [] [] [] [] [] []]. }
    cbn [app] in Hu. rewrite Hu.
    rewrite py_int_py_nat by by constructor.
    rewrite py_nat_horner by (done || by constructor). by rewrite Hval.
Qed.

(** *** Values *)

Lemma skip_ws_head s : head_ws s = false → skip_ws s = s.
Proof. destruct s as [|a s]; [done|]. cbn [head_ws skip_ws]. by intros ->. Qed.

Lemma skip_ws_app w s : blank w → head_ws s = false → skip_ws (w ++ s) = s.
Proof.
  intros Hw Hs. induction Hw as [|a w Ha _ IH]; cbn [app skip_ws].
  - by apply skip_ws_head.
  - by rewrite Ha.
Qed.

Lemma newline_indent_blank level : blank (newline_indent level).
Proof.
  unfold newline_indent. constructor; [done|].
  induction (4 * level)%nat; simpl; by constructor.
Qed.

Lemma blank_not_value c :
  is_json_ws c = true →
  is_digit c = false
  ∧ Ascii.eqb c "." || Ascii.eqb c "e" || Ascii.eqb c "E" = false.
Proof. by destruct c as [[] [] [] [] [] [] [] []]. Qed.

Lemma after_value_end s :
  after_value s → head_digit s = false ∧ float_mark s = false.
Proof.
  intros [[t ->]|(w & t & Hw & ->)]; [done|].
  destruct Hw as [|c w Hc _]; [done|]. cbn [app head_digit float_mark].
  by apply blank_not_value.
Qed.

Lemma repr_head z :
  ∃ c t, repr z = c :: t ∧ (c = "-"%char ∨ is_digit c = true).
Proof.
  unfold repr. destruct (Z.ltb_spec z 0) as [Hneg|Hpos].
  - eexists _, _. split; [done|]. by left.
  - destruct (repr_nat_spec z Hpos) as (ds & -> & Hdig & _ & Hp & Hz).
    destruct Hdig as [|a ds Ha _].
    + destruct (decide (z = 0)) as [->|Hne]; [by specialize (Hz eq_refl)|].
      destruct Hp as (? & ? & ? & _); [lia|done].
    + eexists _, _. split; [done|]. by right.
Qed.

Lemma sign_or_digit c :
  c = "-"%char ∨ is_digit c = true →
  Ascii.eqb c dq = false ∧ Ascii.eqb "n" c = false ∧ is_json_ws c = false.
Proof.
  intros [->|Hc]; [done|]. by destruct c as [[] [] [] [] [] [] [] []].
Qed.

Lemma encode_val_head v : ∃ c t, encode_val v = c :: t ∧ is_json_ws c = false.
Proof.
  destruct v as [|s|z]; simpl.
  - by eexists _, _.
  - by eexists _, _.
  - destruct (repr_head z) as (c & t & -> & Hc). eexists _, _. split; [done|].
    by apply sign_or_digit.
Qed.

Lemma scan_value_encode v rest :
  head_digit rest = false → float_mark rest = false →
  scan_value (encode_val v ++ rest) = Ok (v, rest).
Proof.
  intros Hhd Hfm. destruct v as [|s|z]; cbn [encode_val].
  - done.
  - rewrite encode_str_app. cbn [scan_value]. rewrite Ascii.eqb_refl.
    by rewrite scanstring_encode.
  - pose proof (scan_int_repr z rest Hhd Hfm) as Hi.
    destruct (repr_head z) as (c & t & Hr & Hc). rewrite Hr in *.
    apply sign_or_digit in Hc as (Hq & Hn & _).
    cbn [app scan_value]. rewrite Hq.
    change (strip_prefix "null" (c :: t ++ rest))
      with (if Ascii.eqb "n" c then strip_prefix "ull" (t ++ rest) else None).
    rewrite Hn. cbn [app] in Hi. by rewrite Hi.
Qed.

(** *** Objects *)

Lemma dict_set_fresh (acc : dict) k v :
  k ∉ acc.*1 → dict_set acc k v = acc ++ [(k, v)].
Proof.
  induction acc as [|[k' v'] acc IH]; cbn [dict_set fmap list_fmap fst app];
    [done|].
  intros [Hne Hk]%not_elem_of_cons.
  rewrite bool_decide_eq_false_2 by done. by rewrite IH.
Qed.

Lemma encode_item_head kv : ∃ t, encode_item kv = dq :: t.
Proof. unfold encode_item, encode_str. by eexists. Qed.

(** One member of an object is read back, up to what follows it. *)
Lemma scan_members_step fuel k v tail (acc : dict) :
  after_value tail → k ∉ acc.*1 →
  scan_members (S fuel) (encode_item (k, v) ++ tail) acc =
    match skip_ws tail with
    | e :: s5 =>
        if Ascii.eqb e "}" then Ok (acc ++ [(k, v)], s5)
        else if Ascii.eqb e "," then
          scan_members fuel (skip_ws s5) (acc ++ [(k, v)])
        else Raise ValueError
    | [] => Raise ValueError
    end.
Proof.
  intros [Hhd Hfm]%after_value_end Hk.
  unfold encode_item. cbn [fst snd]. rewrite <- !(assoc_L (++)).
  rewrite encode_str_app. cbn [scan_members]. rewrite Ascii.eqb_refl.
  cbn [negb]. rewrite scanstring_encode. cbn [mbind result_bind].
  change (skip_ws (": " ++ encode_val v ++ tail))
    with (":"%char :: " "%char :: encode_val v ++ tail).
  change (Ascii.eqb ":" ":") with true. cbn [negb].
  change (skip_ws (" "%char :: encode_val v ++ tail))
    with (skip_ws (encode_val v ++ tail)).
  rewrite skip_ws_head.
  2:{ destruct (encode_val_head v) as (c & t & -> & Hc). done. }
  rewrite scan_value_encode by done. cbn [mbind result_bind].
  by rewrite dict_set_fresh.
Qed.

Lemma scan_members_encode (d : dict) : ∀ fuel (acc : dict) w1 w2 rest,
  d ≠ [] → (length d ≤ fuel)%nat → blank w1 → blank w2 →
  NoDup (acc ++ d).*1 →
  scan_members fuel
    (join ("," ++ w1) (map encode_item d) ++ w2 ++ "}"%char :: rest) acc
  = Ok (acc ++ d, rest).
Proof.
  induction d as [|[k v] d IH]; intros fuel acc w1 w2 rest Hne Hfuel Hw1 Hw2 Hnd;
    [done|].
  destruct fuel as [|fuel]; [simpl in Hfuel; lia|].
  assert (k ∉ acc.*1) as Hk.
  { rewrite fmap_app in Hnd. apply NoDup_app in Hnd as (_ & Hnd & _).
    intros Hin. apply (Hnd k Hin). by left. }
  destruct d as [|kv' d].
  - cbn [map join]. rewrite scan_members_step; [|right; by eexists _, _|done].
    rewrite skip_ws_app by done. done.
  - change (join ("," ++ w1) (map encode_item ((k, v) :: kv' :: d)))
      with (encode_item (k, v) ++ ("," ++ w1)
              ++ join ("," ++ w1) (map encode_item (kv' :: d))).
    rewrite <- !(assoc_L (++)).
    rewrite scan_members_step; [|left; by eexists|done].
    change (skip_ws ("," ++ ?x)) with (","%char :: x).
    cbn [app skip_ws]. change (Ascii.eqb "," "}") with false.
    change (Ascii.eqb "," ",") with true. cbv iota.
    destruct (encode_item_head kv') as [t Ht].
    rewrite skip_ws_app.
    2:{ done. }
    2:{ cbn [map join]. destruct d; rewrite Ht; done. }
    rewrite IH; [|done|simpl in *; lia|done|done|].
    + by rewrite <- (assoc_L (++)).
    + by rewrite <- (assoc_L (++)).
Qed.

Lemma join_length (sep : str) (l : list str) :
  Forall (λ x, x ≠ []) l → (length l ≤ length (join sep l))%nat.
Proof.
  induction 1 as [|x l Hx Hl IH]; [done|]. cbn [join].
  destruct x as [|a x]; [done|]. destruct l as [|y l]; [simpl; lia|].
  rewrite !length_app. cbn [length] in *. lia.
Qed.

(** An object is read back from the character after its opening
    brace. *)
Lemma scan_object_encode level (d : dict) rest :
  NoDup d.*1 →
  ∃ X, encode_dict level d ++ rest = "{"%char :: X
       ∧ scan_object X = Ok (d, rest).
Proof.
  intros Hnd. destruct d as [|kv d].
  - exists ("}"%char :: rest). done.
  - eexists. split.
    { unfold encode_dict. rewrite <- !(assoc_L (++)). reflexivity. }
    unfold scan_object. rewrite skip_ws_app.
    2:{ apply newline_indent_blank. }
    2:{ destruct (encode_item_head kv) as [t Ht]. cbn [map join].
        destruct d; rewrite Ht; done. }
    set (sep := "," ++ newline_indent (S level)).
    destruct (encode_item_head kv) as [t Ht].
    assert (∃ t', join sep (map encode_item (kv :: d)) = dq :: t') as [t' Ht'].
    { cbn [map join]. destruct d; rewrite Ht; by eexists. }
    assert (length (kv :: d)
            ≤ length (join sep (map encode_item (kv :: d))
                        ++ newline_indent level ++ "}" ++ rest))%nat as Hlen.
    { rewrite length_app. etrans; [|apply Nat.le_add_r].
      rewrite <- (length_map encode_item). apply join_length.
      apply List.Forall_map, Forall_forall. intros kv' _.
      by destruct (encode_item_head kv') as [? ->]. }
    revert Hlen. rewrite Ht'. cbn [app]. intros Hlen.
    change (Ascii.eqb dq "}") with false. cbv iota.
    change (dq :: t' ++ newline_indent level ++ "}" ++ rest)
      with ((dq :: t') ++ newline_indent level ++ "}"%char :: rest).
    change (dq :: t' ++ newline_indent level ++ "}" ++ rest)
      with ((dq :: t') ++ newline_indent level ++ "}"%char :: rest) in Hlen.
    rewrite <- Ht' in *. unfold sep.
    apply (scan_members_encode (kv :: d) _ []); try done.
    all: apply newline_indent_blank.
Qed.

(** *** The array *)

(** What follows an object in the text: a comma, or blanks and the
    closing bracket. *)
Lemma scan_elements_step fuel level (d : dict) tail (acc : list dict) :
  NoDup d.*1 →
  scan_elements (S fuel) (encode_dict level d ++ tail) acc =
    match skip_ws tail with
    | e :: s3 =>
        if Ascii.eqb e "]" then Ok (acc ++ [d], s3)
        else if Ascii.eqb e "," then
          scan_elements fuel (skip_ws s3) (acc ++ [d])
        else Raise ValueError
    | [] => Raise ValueError
    end.
Proof.
  intros Hnd. destruct (scan_object_encode level d tail Hnd) as (X & -> & HX).
  cbn [scan_elements]. change (Ascii.eqb "{" "{") with true. cbn [negb].
  by rewrite HX.
Qed.

Lemma encode_dict_head level d : ∃ t, encode_dict level d = "{"%char :: t.
Proof. destruct d; by eexists. Qed.

Lemma scan_elements_encode level (data : list dict) :
  ∀ fuel (acc : list dict) w1 w2 rest,
  data ≠ [] → (length data ≤ fuel)%nat → blank w1 → blank w2 →
  Forall (λ d : dict, NoDup d.*1) data →
  scan_elements fuel
    (join ("," ++ w1) (map (encode_dict level) data) ++ w2 ++ "]"%char :: rest)
    acc
  = Ok (acc ++ data, rest).
Proof.
  induction data as [|d data IH];
    intros fuel acc w1 w2 rest Hne Hfuel Hw1 Hw2 Hnd; [done|].
  destruct fuel as [|fuel]; [simpl in Hfuel; lia|].
  inversion Hnd as [|? ? Hd Hnd']; subst.
  destruct data as [|d' data].
  - cbn [map join]. rewrite scan_elements_step by done.
    rewrite skip_ws_app by done. done.
  - change (join ("," ++ w1) (map (encode_dict level) (d :: d' :: data)))
      with (encode_dict level d ++ ("," ++ w1)
              ++ join ("," ++ w1) (map (encode_dict level) (d' :: data))).
    rewrite <- !(assoc_L (++)). rewrite scan_elements_step by done.
    change (skip_ws ("," ++ ?x)) with (","%char :: x).
    cbn [app skip_ws]. change (Ascii.eqb "," "]") with false.
    change (Ascii.eqb "," ",") with true. cbv iota.
    destruct (encode_dict_head level d') as [t Ht].
    rewrite skip_ws_app.
    2:{ done. }
    2:{ cbn [map join]. destruct data; rewrite Ht; done. }
    rewrite IH; [|done|simpl in *; lia|done..].
    by rewrite <- (assoc_L (++)).
Qed.

(** Loading what was dumped gives the entries back. *)
Lemma json_roundtrip (data : list dict) :
  Forall (λ d : dict, NoDup d.*1) data → json_load (json_dump data) = Ok data.
Proof.
  intros Hnd. destruct data as [|d data]; [done|].
  unfold json_dump, json_load.
  change (skip_ws ("[" ++ ?x)) with ("["%char :: x).
  cbn [app]. change (Ascii.eqb "[" "[") with true. cbn [negb].
  rewrite skip_ws_app.
  2:{ apply newline_indent_blank. }
  2:{ destruct (encode_dict_head 1 d) as [t Ht]. cbn [map join].
      destruct data; rewrite Ht; done. }
  set (sep := "," ++ newline_indent 1).
  destruct (encode_dict_head 1 d) as [t Ht].
  assert (∃ t', join sep (map (encode_dict 1) (d :: data)) = "{"%char :: t')
    as [t' Ht'].
  { cbn [map join]. destruct data; rewrite Ht; by eexists. }
  assert (length (d :: data)
          ≤ length (join sep (map (encode_dict 1) (d :: data))
                      ++ newline_indent 0 ++ "]"))%nat as Hlen.
  { rewrite length_app. etrans; [|apply Nat.le_add_r].
    rewrite <- (length_map (encode_dict 1)). apply join_length.
    apply List.Forall_map, Forall_forall. intros d' _.
    by destruct (encode_dict_head 1 d') as [? ->]. }
  revert Hlen. rewrite Ht'. cbn [app]. intros Hlen.
  change (Ascii.eqb "{" "]") with false. cbv iota.
  change ("{"%char :: t' ++ newline_indent 0 ++ "]")
    with (("{"%char :: t') ++ newline_indent 0 ++ "]"%char :: []).
  change ("{"%char :: t' ++ newline_indent 0 ++ "]")
    with (("{"%char :: t') ++ newline_indent 0 ++ "]"%char :: []) in Hlen.
  rewrite <- Ht' in *. unfold sep.
  rewrite (scan_elements_encode 1 (d :: data) _ []); try done.
  all: apply newline_indent_blank.
Qed.

(** Every entry the ingestion loop collects comes from the parser, and
    its five keys are distinct. *)
Lemma parsed_keys_distinct line (d : dict) :
  parse_log_line line = Ok (Some d) → NoDup d.*1.
Proof.
  intros Hp. destruct (re_match pattern line) as [[m rest]|] eqn:Hm.
  2:{ unfold parse_log_line in Hp. by rewrite Hm in Hp. }
  destruct (parse_log_line_match _ _ _ Hm)
    as (host & ts & req & stt & b & code & bytes & _ & _ & _ & _ & _ & He).
  rewrite He in Hp. injection Hp as <-.
  cbn [fmap list_fmap fst]. apply (bool_decide_unpack _). vm_compute. exact I.
Qed.

Lemma ingest_keys_distinct lines : ∀ parsed_data data,
  Forall (λ d : dict, NoDup d.*1) parsed_data →
  ingest parsed_data lines = Ok data →
  Forall (λ d : dict, NoDup d.*1) data.
Proof.
  induction lines as [|line lines IH]; intros pd data Hpd; cbn [ingest].
  - by intros [= <-].
  - unfold ingest_line.
    destruct (parse_log_line line) as [[d|]|e] eqn:Hp; cbn [mbind result_bind];
      [|by apply IH|done].
    destruct d as [|kv d]; [by apply IH|]. apply IH.
    apply Forall_app. split; [done|]. constructor; [|done].
    by eapply parsed_keys_distinct.
Qed.

(** C8. Whatever the ingestion loop collected, loading the text that
    [json.dump] wrote for it returns the same list of entries: every
    entry comes back with the same keys and the same values, in the same
    order. *)
Theorem exchange_roundtrip (lines : list str) (data : list dict) :
  ingest [] lines = Ok data → json_load (json_dump data) = Ok data.
Proof.
  intros Hi. apply json_roundtrip. by eapply ingest_keys_distinct.
Qed.

Lemma exchange_roundtrip_witness :
  ingest [] [lineA; line_bad; lineB] = Ok [entryA; entryB]
  ∧ json_load (json_dump [entryA; entryB]) = Ok [entryA; entryB].
Proof.
  assert (ingest [] [lineA; line_bad; lineB] = Ok [entryA; entryB]) as Hi.
  { vm_compute. reflexivity. }
  split; [exact Hi|]. exact (exchange_roundtrip _ _ Hi).
Defined.

(** * Further properties of the code *)

(** ** parse_log_line *)



Lemma digit_val_range a : is_digit a = true → 0 ≤ digit_val a ≤ 9.
Proof.
  unfold is_digit, digit_val. intros [H1 H2]%andb_prop.
  apply N.leb_le in H1, H2. lia.
Qed.

Lemma py_nat_three (st : str) z :
  length st = 3%nat → all CDigit st → py_nat st = Ok z → 0 ≤ z ≤ 999.
Proof.
  intros Hlen Hst. rewrite py_nat_horner by (done || by destruct st).
  intros [= <-]. destruct st as [|d1 [|d2 [|d3 [|]]]]; try done.
  inversion Hst as [|? ? H1 Hst1]; subst.
  inversion Hst1 as [|? ? H2 Hst2]; subst.
  inversion Hst2 as [|? ? H3 _]; subst.
  apply digit_val_range in H1, H2, H3. simpl. lia.
Qed.

(** X2. The fields of an entry are cut out of the line as they stand:
    the line is the host, the marker, the timestamp in brackets, the
    request in quotes, the status and the byte token, one after the
    other, and then a rest the entry does not depend on. The host is not
    empty and holds no whitespace, the timestamp and the request hold no
    line feed, the status is the value of three digits, from 0 to 999,
    and the byte count is 0 for the dash and the value of the digits
    otherwise. *)
Theorem entry_from_line line e :
  parse_log_line line = Ok (Some e) →
  ∃ (host ts req status tok rest : str) code bytes,
    line = host ++ " - - [" ++ ts ++ "] " ++ [dq] ++ req ++ [dq] ++ " "
                ++ status ++ " " ++ tok ++ rest
    ∧ e = [("host" : str, VStr host); ("timestamp" : str, VStr ts);
           ("request" : str, VStr req);
           ("http_reply_code" : str, VInt code);
           ("bytes" : str, VInt bytes)]
    ∧ (host ≠ [] ∧ all CNonSpace host) ∧ all CAny ts ∧ all CAny req
    ∧ (length status = 3%nat ∧ py_nat status = Ok code ∧ 0 ≤ code ≤ 999)
    ∧ (tok = "-" ∧ bytes = 0
       ∨ (tok ≠ [] ∧ all CDigit tok) ∧ py_nat tok = Ok bytes).
Proof.
  intros Hp. destruct (re_match pattern line) as [[m rest]|] eqn:Hm.
  2:{ unfold parse_log_line in Hp. by rewrite Hm in Hp. }
  destruct (parse_log_line_match _ _ _ Hm)
    as (host & ts & req & st & b & code & bytes & Hm1 & _ & Hc & Hb & _ & He).
  apply re_match_sound in Hm
    as (host' & ts' & req' & st' & b' & -> & Hm2 & Hhost & Hts & Hreq & Hst & _).
  rewrite Hm1 in Hm2. injection Hm2 as <- <- <- <- <-.
  rewrite He in Hp. injection Hp as <-.
  rewrite py_int_py_nat in Hc by apply Hst.
  exists host, ts, req, st, b, rest, code, bytes.
  split; [done|]. split; [done|]. split; [done|]. split; [done|].
  split; [done|]. split.
  - split; [apply Hst|]. split; [done|].
    eapply py_nat_three; [apply Hst..|done].
  - destruct Hb as [Hb|[Hb Hbytes]]; [by left|right]. split; [done|].
    by rewrite py_int_py_nat in Hbytes by apply Hb.
Qed.

Lemma entry_from_line_witness :
  ∃ (host ts req status tok rest : str) code bytes,
    line1 ++ " trailing" =
      host ++ " - - [" ++ ts ++ "] " ++ [dq] ++ req ++ [dq] ++ " "
           ++ status ++ " " ++ tok ++ rest
    ∧ entry1 = [("host" : str, VStr host); ("timestamp" : str, VStr ts);
           ("request" : str, VStr req);
           ("http_reply_code" : str, VInt code);
           ("bytes" : str, VInt bytes)]
    ∧ (host ≠ [] ∧ all CNonSpace host) ∧ all CAny ts ∧ all CAny req
    ∧ (length status = 3%nat ∧ py_nat status = Ok code ∧ 0 ≤ code ≤ 999)
    ∧ (tok = "-" ∧ bytes = 0
       ∨ (tok ≠ [] ∧ all CDigit tok) ∧ py_nat tok = Ok bytes).
Proof.
  apply (entry_from_line (line1 ++ " trailing") entry1).
  vm_compute. reflexivity.
Defined.

(** The match of the pattern, stage by stage: where the lazy groups
    stop. *)
Lemma re_match_stages line m rest :
  re_match pattern line = Some (m, rest) →
  ∃ host ts req post : str,
    line = host ++ " - - [" ++ ts ++ ("] " ++ [dq]) ++ req ++ post
    ∧ (∃ st b, m = [(5%nat, b); (4%nat, st); (3%nat, req); (2%nat, ts);
                    (1%nat, host)])
    ∧ closes post = true
    ∧ (∀ r1 r2 : str, req = r1 ++ r2 → r2 ≠ [] → closes (r2 ++ post) = false)
    ∧ (∀ t1 t2 x : str, ts = t1 ++ t2 → t2 ≠ [] →
         t2 ++ ("] " ++ [dq]) ++ req ++ post ≠ ("] " ++ [dq]) ++ x).
Proof.
  rewrite re_match_run, pattern_tails. unfold run. cbn [rmatch].
  destruct line as [|a s]; [done|].
  destruct (in_class CNonSpace a) eqn:Ha; [|done].
  intros (w & t & -> & Hw & Hk & _)%greedy_Some.
  change (a :: w ++ t) with ((a :: w) ++ t) in Hk.
  rewrite consumed_app in Hk.
  apply run_lit in Hk as (t1 & -> & Hk).
  apply run_lazy in Hk as (ts & t2 & -> & Hts & Hk & Hmin_ts).
  apply run_lit in Hk as (t3 & -> & Hk).
  apply run_lazy in Hk as (req & post & -> & Hreq & Hk & Hmin_req).
  assert (closes post = true) as Hpost.
  { eapply quote_is_Some. by eexists. }
  exists (a :: w), ts, req, post. split; [done|]. split.
  { apply run_lit in Hk as (t4 & -> & Hk).
    apply run_status in Hk as (st & t5 & -> & _ & Hk).
    apply run_bytes in Hk as (b & -> & -> & _). by exists st, b. }
  split; [done|]. split.
  - intros r1 r2 -> Hne.
    destruct (closes (r2 ++ post)) eqn:Hc; [exfalso|done].
    apply (quote_is_Some _ [(3%nat, r1); (2%nat, ts); (1%nat, a :: w)]) in Hc
      as [res Hc].
    rewrite (Hmin_req r1 (r2 ++ post)) in Hc; [done| |].
    + by rewrite <- (assoc_L (++)).
    + rewrite length_app. destruct r2; [done|]. simpl. lia.
  - intros u1 u2 x -> Hne Heq.
    assert (is_Some (run tail_bracket (u2 ++ ("] " ++ [dq]) ++ req ++ post)
                       [(2%nat, u1); (1%nat, a :: w)])) as [res Hres].
    { rewrite Heq.
      assert (is_Some (run tail_request x [(2%nat, u1); (1%nat, a :: w)]))
        as [res Hres]; [|exists res; apply run_lit; by exists x].
      apply request_is_Some. apply Forall_app in Hts as [_ Hu2].
      destruct u2 as [|c1 [|c2 [|c3 u2]]]; [done|discriminate Heq..|].
      injection Heq as -> -> -> <-.
      exists (u2 ++ ("] " ++ [dq]) ++ req), post.
      split; [by rewrite <- !(assoc_L (++))|]. split; [|done].
      inversion Hu2 as [|? ? _ Hl1]; subst.
      inversion Hl1 as [|? ? _ Hl2]; subst.
      inversion Hl2 as [|? ? _ Hl3]; subst.
      apply Forall_app. split; [done|]. apply Forall_app. split; [|done].
      by repeat constructor. }
    rewrite (Hmin_ts u1 (u2 ++ ("] " ++ [dq]) ++ req ++ post)) in Hres;
      [done| |].
    + by rewrite <- (assoc_L (++)).
    + rewrite length_app. destruct u2; [done|]. simpl. lia.
Qed.

(** X3. The two lazy groups stop at the first delimiter: no bracket,
    blank and quote stand earlier in the timestamp, and the seven
    characters that end a request (quote, blank, three digits, blank,
    digit or dash) stand nowhere in the request before its end. A line
    with such characters inside a field is not rejected, the field is
    cut short. *)
Theorem fields_end_at_first_delimiter line e :
  parse_log_line line = Ok (Some e) →
  ∃ host ts req post : str,
    line = host ++ " - - [" ++ ts ++ "] " ++ [dq] ++ req ++ post
    ∧ dict_get e "timestamp" = Some (VStr ts)
    ∧ dict_get e "request" = Some (VStr req)
    ∧ closes post = true
    ∧ (∀ r1 r2 : str, req = r1 ++ r2 → r2 ≠ [] → closes (r2 ++ post) = false)
    ∧ (∀ t1 t2 x : str, ts = t1 ++ t2 → t2 ≠ [] →
         t2 ++ "] " ++ [dq] ++ req ++ post ≠ "] " ++ [dq] ++ x).
Proof.
  intros Hp. destruct (re_match pattern line) as [[m rest]|] eqn:Hm.
  2:{ unfold parse_log_line in Hp. by rewrite Hm in Hp. }
  destruct (parse_log_line_match _ _ _ Hm)
    as (host & ts & req & st & b & code & bytes & Hm1 & _ & _ & _ & _ & He).
  apply re_match_stages in Hm
    as (host' & ts' & req' & post & -> & (st' & b' & Hm2) & Hpost & Hreq & Hts).
  rewrite Hm1 in Hm2. injection Hm2 as <- <- <- <- <-.
  rewrite He in Hp. injection Hp as <-.
  exists host, ts, req, post. rewrite <- !(assoc_L (++)) in *.
  repeat split; try done.
Qed.

Lemma fields_end_at_first_delimiter_witness :
  ∃ host ts req post : str,
    line_cut = host ++ " - - [" ++ ts ++ "] " ++ [dq] ++ req ++ post
    ∧ dict_get entry_cut "timestamp" = Some (VStr ts)
    ∧ dict_get entry_cut "request" = Some (VStr req)
    ∧ closes post = true
    ∧ (∀ r1 r2 : str, req = r1 ++ r2 → r2 ≠ [] → closes (r2 ++ post) = false)
    ∧ (∀ t1 t2 x : str, ts = t1 ++ t2 → t2 ≠ [] →
         t2 ++ "] " ++ [dq] ++ req ++ post ≠ "] " ++ [dq] ++ x).
Proof.
  apply (fields_end_at_first_delimiter line_cut entry_cut).
  vm_compute. reflexivity.
Defined.

Lemma app_snoc_inv {X} (l1 l2 l3 : list X) x :
  l1 ++ [x] = l2 ++ l3 →
  (l3 = [] ∧ l2 = l1 ++ [x]) ∨ ∃ l3', l3 = l3' ++ [x] ∧ l1 = l2 ++ l3'.
Proof.
  destruct l3 as [|y l3 _] using rev_ind.
  - rewrite (right_id_L [] (++)). intros <-. by left.
  - rewrite (assoc_L (++)). intros [-> ->]%app_inj_tail. right. by eexists.
Qed.

(** A line feed at the end of a line takes no part in a match. *)
Lemma conforms_line_feed line : conforms (line ++ [lf]) → conforms line.
Proof.
  intros (host & ts & req & st & b & rest & Heq & Hhost & Hts & Hreq & Hst & Hb).
  rewrite !(assoc_L (++)) in Heq.
  apply app_snoc_inv in Heq as [[-> Heq]|(rest' & -> & ->)].
  - exfalso. symmetry in Heq.
    apply app_snoc_inv in Heq as [[-> _]|(b' & -> & _)].
    + by destruct Hb as [?|[? _]].
    + destruct Hb as [Hb|[_ Hb]].
      * by destruct b' as [|? [|? ?]].
      * apply Forall_app in Hb as [_ Hb]. by inversion Hb.
  - exists host, ts, req, st, b, rest'. rewrite <- !(assoc_L (++)). done.
Qed.

(** X4. The line feed that the iteration over the file leaves at the end
    of each line changes nothing: with or without it the parser returns
    the same result. *)
Theorem line_feed_ignored line :
  parse_log_line (line ++ [lf]) = parse_log_line line.
Proof.
  destruct (re_match pattern line) as [[m rest]|] eqn:Hm.
  - destruct (ext_pattern [lf] _ _ _ Hm) as ([m' rest'] & Hm' & Hext).
    destruct Hext as (b & b' & c0 & Hb & Hb' & Hsame).
    destruct Hsame as [-> _]; [done|]. cbn [fst] in Hb, Hb'. subst m m'.
    rewrite <- re_match_run in Hm'. unfold parse_log_line.
    by rewrite Hm, Hm'.
  - destruct (re_match pattern (line ++ [lf])) as [[m' rest']|] eqn:Hm'.
    + assert (conforms line) as [x Hx]%re_match_complete; [|congruence].
      apply conforms_line_feed.
      apply re_match_sound in Hm' as (host & ts & req & st & b & Heq & _ & H).
      by exists host, ts, req, st, b, rest'.
    + unfold parse_log_line. by rewrite Hm, Hm'.
Qed.

(** ** The ingestion loop *)


(** ** sanitize_key *)

Lemma runs_replaced_no_space s t :
  runs_replaced s t →
  Forall (λ a, is_space a = false) t ∧ (length t ≤ length s)%nat.
Proof.
  induction 1 as [|a s t Ha _ [IH1 IH2]|w s t Hne Hw Hs _ [IH1 IH2]].
  - split; [constructor|done].
  - split; [by constructor|simpl; lia].
  - split; [by constructor|]. rewrite length_app. destruct w; [done|].
    simpl. lia.
Qed.

Lemma sanitize_key_id s :
  Forall (λ a, is_space a = false) s → sanitize_key s = s.
Proof.
  induction 1 as [|a s Ha _ IH]; [done|].
  by rewrite sanitize_key_keep, IH.
Qed.

(** X6. A sanitized key holds no whitespace character, and it is never
    longer than the key it comes from. *)
Theorem sanitize_key_no_whitespace key :
  Forall (λ a, is_space a = false) (sanitize_key key)
  ∧ (length (sanitize_key key) ≤ length key)%nat.
Proof. apply runs_replaced_no_space, sanitize_key_runs_replaced. Qed.

(** X7. The keys that [sanitize_key] leaves as they are, are the keys
    without whitespace; sanitizing a second time changes nothing. *)
Theorem sanitize_key_fixed key :
  (sanitize_key key = key ↔ Forall (λ a, is_space a = false) key)
  ∧ sanitize_key (sanitize_key key) = sanitize_key key.
Proof.
  pose proof (runs_replaced_no_space _ _ (sanitize_key_runs_replaced key))
    as [Hns _].
  split; [split|].
  - intros Heq. by rewrite Heq in Hns.
  - apply sanitize_key_id.
  - by apply sanitize_key_id.
Qed.

Lemma sanitize_key_collapse_aux n : ∀ p w1 w2 t : str,
  length p = n →
  w1 ≠ [] → w2 ≠ [] → all CSpace w1 → all CSpace w2 → head_space t = false →
  sanitize_key (p ++ w1 ++ t) = sanitize_key (p ++ w2 ++ t).
Proof.
  induction n as [n IH] using lt_wf_ind.
  intros p w1 w2 t Hn Hne1 Hne2 Hw1 Hw2 Ht. destruct p as [|a p].
  - cbn [app]. by rewrite !sanitize_key_run.
  - cbn [app]. destruct (is_space a) eqn:Ha.
    + destruct (span_space p) as (wp & q & -> & Hwp & Hq).
      destruct q as [|c q].
      * assert (∀ w : str, w ≠ [] → all CSpace w →
                  sanitize_key (a :: (wp ++ []) ++ w ++ t)
                  = "_"%char :: sanitize_key t) as Hstep.
        { intros w Hne Hw. rewrite (right_id_L [] (++)).
          change (a :: wp ++ w ++ t) with ((a :: wp) ++ w ++ t).
          rewrite (assoc_L (++)). apply sanitize_key_run; [done| |done].
          apply Forall_app. split; [by constructor|done]. }
        by rewrite !Hstep.
      * assert (∀ w : str,
                  sanitize_key (a :: (wp ++ c :: q) ++ w ++ t)
                  = "_"%char :: sanitize_key ((c :: q) ++ w ++ t)) as Hstep.
        { intros w. rewrite <- (assoc_L (++)).
          apply (sanitize_key_run (a :: wp) ((c :: q) ++ w ++ t));
            [done|by constructor|done]. }
        rewrite !Hstep. f_equal.
        eapply (IH (length (c :: q))); try done.
        rewrite <- Hn. cbn [length]. rewrite length_app. cbn [length]. lia.
    + rewrite !sanitize_key_keep by done. f_equal.
      eapply (IH (length p)); try done. rewrite <- Hn. simpl. lia.
Qed.

Lemma sanitize_key_collapse (p w1 w2 t : str) :
  w1 ≠ [] → w2 ≠ [] → all CSpace w1 → all CSpace w2 →
  sanitize_key (p ++ w1 ++ t) = sanitize_key (p ++ w2 ++ t).
Proof.
  intros Hne1 Hne2 Hw1 Hw2. destruct (span_space t) as (wt & t' & -> & Hwt & Ht').
  rewrite !(assoc_L (++) _ wt t').
  eapply sanitize_key_collapse_aux; try done.
  - by destruct w1.
  - by destruct w2.
  - by apply Forall_app.
  - by apply Forall_app.
Qed.

(** X8. The key does not tell runs of whitespace apart: two texts that
    differ in one run of whitespace only get the same sanitized key, and
    two entries whose timestamps differ that way get the same
    deduplication key, so that the second overwrites the first in the
    key-value stores. *)
Theorem whitespace_runs_collide (p w1 w2 t : str) (e1 e2 : dict) (host : str) :
  w1 ≠ [] → w2 ≠ [] → all CSpace w1 → all CSpace w2 →
  dict_get e1 "host" = Some (VStr host) →
  dict_get e1 "timestamp" = Some (VStr (p ++ w1 ++ t)) →
  dict_get e2 "host" = Some (VStr host) →
  dict_get e2 "timestamp" = Some (VStr (p ++ w2 ++ t)) →
  sanitize_key (p ++ w1 ++ t) = sanitize_key (p ++ w2 ++ t)
  ∧ ∃ key, dedup_key e1 = Ok key ∧ dedup_key e2 = Ok key.
Proof.
  intros Hne1 Hne2 Hw1 Hw2 Hh1 Ht1 Hh2 Ht2.
  split; [by apply sanitize_key_collapse|].
  unfold dedup_key, getitem. rewrite Hh1, Ht1, Hh2, Ht2.
  cbn [mbind result_bind format].
  exists (sanitize_key ((host ++ ":" ++ p) ++ w1 ++ t)). split.
  - by rewrite <- !(assoc_L (++)).
  - rewrite (sanitize_key_collapse _ w1 w2) by done.
    by rewrite <- !(assoc_L (++)).
Qed.

Lemma whitespace_runs_collide_witness :
  sanitize_key ("01/Jul/1995:00:00:01" ++ " " ++ "-0400")
  = sanitize_key ("01/Jul/1995:00:00:01" ++ "  " ++ "-0400")
  ∧ ∃ key,
      dedup_key [("host" : str, VStr "h");
                 ("timestamp" : str,
                  VStr ("01/Jul/1995:00:00:01" ++ " " ++ "-0400"))] = Ok key
      ∧ dedup_key [("host" : str, VStr "h");
                   ("timestamp" : str,
                    VStr ("01/Jul/1995:00:00:01" ++ "  " ++ "-0400"))] = Ok key.
Proof.
  apply (whitespace_runs_collide "01/Jul/1995:00:00:01" " " "  " "-0400" _ _ "h");
    try done; by repeat constructor.
Defined.

(** ** The fan-out writer *)

Lemma hset_inv key e st st' o :
  hset key e st = (st', o) →
  match o with
  | Ok _ =>
      ∃ fields, encode_mapping e = Ok fields ∧ e ≠ []
        ∧ st' = {| redis_hashes :=
                     <[key := foldl (λ h fv, <[fv.1 := fv.2]> h)
                                (default ∅ (redis_hashes st !! key)) fields]>
                       (redis_hashes st);
                   redis_strings := redis_strings st;
                   memcached := memcached st;
                   nasa_logs := nasa_logs st;
                   nasa_logs_id_seq := nasa_logs_id_seq st;
                   committed := committed st |}
  | Raise _ => st' = st
  end.
Proof.
  unfold hset. destruct e as [|kv e]; [by intros [= <- <-]|].
  destruct (encode_mapping (kv :: e)) as [fields|err]; intros [= <- <-];
    [|done].
  by exists fields.
Qed.

(** The loop body is the three key-value writes followed by the
    insert. *)
Lemma load_entry_phases e st :
  load_entry e st =
    match dedup_key e with
    | Raise err => (st, Raise err)
    | Ok key =>
        match e, encode_mapping e with
        | [], _ => (st, Raise DataError)
        | _, Raise err => (st, Raise err)
        | _, Ok fields => insert_entry e (kv_written key e fields st)
        end
    end.
Proof.
  destruct e as [|kv e]; [done|].
  unfold load_entry. destruct (dedup_key (kv :: e)) as [key|err]; [|done].
  unfold mbind at 1. unfold io_bind, lift. unfold mbind at 1. unfold io_bind.
  unfold hset. by destruct (encode_mapping (kv :: e)) as [fields|err].
Qed.

Lemma insert_entry_inv e st st' o :
  insert_entry e st = (st', o) →
  redis_hashes st' = redis_hashes st ∧ redis_strings st' = redis_strings st
  ∧ memcached st' = memcached st ∧ committed st' = committed st
  ∧ match o with
    | Ok _ =>
        ∃ rows h t r s b,
          has_columns e h t r s b ∧ nasa_logs st = Some rows
          ∧ nasa_logs st' =
              Some (let row := new_row (nasa_logs_id_seq st) h t r s b in
                    if existsb (conflict row) rows then rows else rows ++ [row])
          ∧ nasa_logs_id_seq st' = nasa_logs_id_seq st + 1
    | Raise _ => st' = st
    end.
Proof.
  unfold insert_entry, getitem, mbind, io_bind, lift, has_columns.
  destruct (dict_get e "host") as [h|]; [|by intros [= <- <-]].
  destruct (dict_get e "timestamp") as [t|]; [|by intros [= <- <-]].
  destruct (dict_get e "request") as [r|]; [|by intros [= <- <-]].
  destruct (dict_get e "status") as [s|]; [|by intros [= <- <-]].
  destruct (dict_get e "bytes_sent") as [b|]; [|by intros [= <- <-]].
  unfold insert_row. destruct (nasa_logs st) as [rows|] eqn:Hrows;
    intros [= <- <-]; [|done].
  repeat split; try done. by exists rows, h, t, r, s, b.
Qed.






Lemma load_entry_inv e st st' o :
  load_entry e st = (st', o) →
  committed st' = committed st
  ∧ match o with
    | Ok _ =>
        ∃ key rows h t r s b,
          dedup_key e = Ok key
          ∧ redis_strings st' = <[key := json_dumps e]> (redis_strings st)
          ∧ memcached st' = <[key := json_dumps e]> (memcached st)
          ∧ has_columns e h t r s b ∧ nasa_logs st = Some rows
          ∧ nasa_logs st' =
              Some (let row := new_row (nasa_logs_id_seq st) h t r s b in
                    if existsb (conflict row) rows then rows else rows ++ [row])
          ∧ nasa_logs_id_seq st' = nasa_logs_id_seq st + 1
    | Raise _ =>
        nasa_logs st' = nasa_logs st
        ∧ nasa_logs_id_seq st' = nasa_logs_id_seq st
    end.
Proof.
  rewrite load_entry_phases. destruct (dedup_key e) as [key|err].
  2:{ by intros [= <- <-]. }
  destruct e as [|kv e]; [by intros [= <- <-]|].
  destruct (encode_mapping (kv :: e)) as [fields|err].
  2:{ by intros [= <- <-]. }
  intros Hi. apply insert_entry_inv in Hi as (Hh & Hs & Hm & Hc & Ho).
  split; [done|]. destruct o as [[]|err].
  - destruct Ho as (rows & h & t & r & s & b & Hcols & Hrows & Hrows' & Hseq).
    exists key, rows, h, t, r, s, b. by rewrite Hs, Hm.
  - by subst st'.
Qed.

Lemma load_entries_flat_stores data st st' (key : str) :
  load_entries data st = (st', Ok ()) →
  redis_strings st' !! key =
    match latest key data with
    | Some e => Some (json_dumps e)
    | None => redis_strings st !! key
    end
  ∧ memcached st' !! key =
    match latest key data with
    | Some e => Some (json_dumps e)
    | None => memcached st !! key
    end.
Proof.
  revert st. induction data as [|e data IH]; intros st; cbn [load_entries latest].
  - by intros [= <-].
  - unfold mbind, io_bind.
    destruct (load_entry e st) as [st1 [[]|err]] eqn:He; [|done].
    intros [IH1 IH2]%IH. rewrite IH1, IH2.
    apply load_entry_inv in He
      as (_ & k & rows & h & t & r & s & b & Hk & Hs & Hm & _).
    destruct (latest key data) as [e'|]; [done|]. rewrite Hk, Hs, Hm.
    case_bool_decide as Heq.
    + subst k. by rewrite !lookup_insert_eq.
    + by rewrite !lookup_insert_ne.
Qed.

(** X10. When the loop has gone through all the entries, each key of the
    two flat stores holds the dumped form of the last entry that has
    this key, and a key of no entry holds what it held before. *)
Theorem last_write_wins data st st' (key : str) :
  load_entries data st = (st', Ok ()) →
  redis_strings st' !! key =
    match latest key data with
    | Some e => Some (json_dumps e)
    | None => redis_strings st !! key
    end
  ∧ memcached st' !! key =
    match latest key data with
    | Some e => Some (json_dumps e)
    | None => memcached st !! key
    end.
Proof. apply load_entries_flat_stores. Qed.

Lemma last_write_wins_witness :
  ∃ st',
    load_entries [wentryA; wentryB] (create_pg_table init).1 = (st', Ok ())
    ∧ redis_strings st' !! ("h.example.com:01/Jul/1995:00:00:01_-0400" : str)
      = Some (json_dumps wentryB)
    ∧ memcached st' !! ("h.example.com:01/Jul/1995:00:00:01_-0400" : str)
      = Some (json_dumps wentryB).
Proof.
  eexists. split; [vm_compute; reflexivity|].
  eapply (last_write_wins [wentryA; wentryB] (create_pg_table init).1 _
            ("h.example.com:01/Jul/1995:00:00:01_-0400" : str)).
  vm_compute. reflexivity.
Defined.




Lemma load_entries_committed data : ∀ st st' o,
  load_entries data st = (st', o) → committed st' = committed st.
Proof.
  induction data as [|e data IH]; intros st st' o; cbn [load_entries].
  - by intros [= <- <-].
  - unfold mbind, io_bind.
    destruct (load_entry e st) as [st1 [[]|err]] eqn:He.
    + apply load_entry_inv in He as [<- _]. apply IH.
    + apply load_entry_inv in He as [<- _]. by intros [= <- <-].
Qed.

(** X12. The rows are committed once, after the last entry: a run that
    comes to its end leaves the table committed as it stands, and a run
    that raises, in the loading of the file or at any entry, leaves
    committed what was committed before. *)
Theorem commit_after_the_loop file st st' o :
  load_data_to_in_memory_db file st = (st', o) →
  match o with
  | Ok _ => committed st' = nasa_logs st'
  | Raise _ => committed st' = committed st
  end.
Proof.
  unfold load_data_to_in_memory_db, mbind, io_bind, lift.
  destruct (json_load file) as [data|err]; [|by intros [= <- <-]].
  destruct (load_entries data st) as [st1 [[]|err]] eqn:Hl.
  - unfold commit. by intros [= <- <-].
  - intros [= <- <-]. by eapply load_entries_committed.
Qed.

Lemma commit_after_the_loop_witness :
  ∃ st',
    load_data_to_in_memory_db (json_dump [wentryA; entryB])
      (create_pg_table init).1 = (st', Raise (KeyError "status"))
    ∧ committed st' = committed (create_pg_table init).1.
Proof.
  eexists. split; [vm_compute; reflexivity|].
  apply (commit_after_the_loop (json_dump [wentryA; entryB])
           (create_pg_table init).1 _ (Raise (KeyError "status"))).
  vm_compute. reflexivity.
Defined.

(** X13. An entry without host or without timestamp is refused before
    anything is written: the loop body raises [KeyError] for the first
    of the two that is missing and leaves all the backends as they
    were. *)
Theorem entry_without_host_or_timestamp (e : dict) st :
  dict_get e "host" = None ∨ dict_get e "timestamp" = None →
  ∃ k : str,
    load_entry e st = (st, Raise (KeyError k))
    ∧ (k = "host" ∧ dict_get e "host" = None
       ∨ k = "timestamp" ∧ dict_get e "timestamp" = None).
Proof.
  intros Hmiss. rewrite load_entry_phases. unfold dedup_key, getitem.
  destruct (dict_get e "host") as [h|] eqn:Hh.
  - destruct Hmiss as [?|Ht]; [done|]. rewrite Ht. cbn [mbind result_bind].
    exists "timestamp". split; [done|]. by right.
  - exists "host". split; [done|]. by left.
Qed.

Lemma entry_without_host_or_timestamp_witness :
  ∃ k : str,
    load_entry [("timestamp" : str, VStr "t"); ("request" : str, VStr "r")] init
    = (init, Raise (KeyError k))
    ∧ (k = "host"
         ∧ dict_get [("timestamp" : str, VStr "t"); ("request" : str, VStr "r")]
                    "host" = None
       ∨ k = "timestamp"
         ∧ dict_get [("timestamp" : str, VStr "t"); ("request" : str, VStr "r")]
                    "timestamp" = None).
Proof.
  apply (entry_without_host_or_timestamp
           [("timestamp" : str, VStr "t"); ("request" : str, VStr "r")] init).
  left. reflexivity.
Defined.














(** ** json.dump and json.load *)

Ltac plain_literal :=
  simpl; repeat (apply Forall_cons_2; [by right|]); apply Forall_nil_2.

Lemma hex_char_printable n : (n < 16)%N → printable (hex_char n) = true.
Proof.
  intros Hn. unfold printable, hex_char, code.
  destruct (N.ltb_spec n 10); rewrite N_ascii_embedding by lia;
    apply andb_true_iff; split; apply N.leb_le; lia.
Qed.

Lemma escape_printable a : Forall (λ c, printable c = true) (escape a).
Proof.
  assert (code a < 256)%N as Hlt by apply N_ascii_bounded.
  unfold escape. cbn zeta.
  repeat (destruct (_ =? _)%N; [by repeat constructor|]).
  destruct (_ && _) eqn:Hp; [by repeat constructor|].
  do 4 (constructor; [done|]).
  constructor; [|constructor; [|constructor]]; apply hex_char_printable.
  - apply N.Div0.div_lt_upper_bound. lia.
  - apply N.mod_lt. lia.
Qed.

Lemma encode_str_printable s : Forall (λ c, printable c = true) (encode_str s).
Proof.
  unfold encode_str. constructor; [done|]. apply Forall_app. split.
  - induction s as [|a s IH]; cbn [map concat]; [constructor|].
    apply Forall_app. split; [apply escape_printable|done].
  - by repeat constructor.
Qed.

Lemma digit_printable a : is_digit a = true → printable a = true.
Proof.
  unfold is_digit, printable. cbn zeta. intros H.
  apply andb_true_iff in H as [H1 H2].
  apply N.leb_le in H1, H2. apply andb_true_iff.
  split; apply N.leb_le; lia.
Qed.

Lemma repr_printable z : Forall (λ c, printable c = true) (repr z).
Proof.
  assert (∀ n, 0 ≤ n → Forall (λ c, printable c = true) (repr_nat n)) as Hn.
  { intros n Hpos. destruct (repr_nat_spec n Hpos) as (ds & -> & Hdig & _).
    eapply Forall_impl; [exact Hdig|]. intros a. apply digit_printable. }
  unfold repr. destruct (Z.ltb_spec z 0).
  - constructor; [done|]. apply Hn. lia.
  - by apply Hn.
Qed.

Lemma encode_item_printable kv :
  Forall (λ c, printable c = true) (encode_item kv).
Proof.
  unfold encode_item. apply Forall_app. split; [apply encode_str_printable|].
  apply Forall_app. split; [by repeat constructor|].
  destruct kv.2 as [|s|z]; cbn [encode_val].
  - by repeat constructor.
  - apply encode_str_printable.
  - apply repr_printable.
Qed.

Lemma join_Forall (P : ascii → Prop) sep l :
  Forall P sep → Forall (Forall P) l → Forall P (join sep l).
Proof.
  intros Hsep. induction 1 as [|x l Hx Hl IH]; [constructor|].
  cbn [join]. destruct l as [|y l]; [done|].
  apply Forall_app. split; [done|]. apply Forall_app. by split.
Qed.

Lemma newline_indent_plain level :
  Forall (λ c, c = lf ∨ printable c = true) (newline_indent level).
Proof.
  unfold newline_indent. constructor; [by left|].
  apply Forall_forall. intros c Hc. apply list_elem_of_In, repeat_spec in Hc.
  subst c. by right.
Qed.

Lemma encode_dict_plain level d :
  Forall (λ c, c = lf ∨ printable c = true) (encode_dict level d).
Proof.
  unfold encode_dict. destruct d as [|kv d]; [plain_literal|].
  constructor; [by right|]. apply Forall_app.
  split; [apply newline_indent_plain|]. apply Forall_app. split.
  - apply join_Forall.
    + constructor; [by right|]. apply newline_indent_plain.
    + apply List.Forall_map, Forall_forall. intros x _.
      eapply Forall_impl; [apply encode_item_printable|]. intros c Hc.
      by right.
  - apply Forall_app. split; [apply newline_indent_plain|].
    plain_literal.
Qed.

(** X17. The text that [json.dump] writes and the text that [json.dumps]
    stores hold nothing but ASCII characters: the printable range
    and, with [indent=4], the line feed. The stored text of an entry has
    no line feed. *)
Theorem dumped_text_is_ascii :
  (∀ data : list dict,
     Forall (λ c, c = lf ∨ printable c = true) (json_dump data))
  ∧ (∀ d : dict, Forall (λ c, printable c = true) (json_dumps d)).
Proof.
  split.
  - intros data. unfold json_dump.
    destruct data as [|d data]; [plain_literal|].
    constructor; [by right|]. apply Forall_app.
    split; [apply newline_indent_plain|]. apply Forall_app. split.
    + apply join_Forall.
      * constructor; [by right|]. apply newline_indent_plain.
      * apply List.Forall_map, Forall_forall. intros x _.
        apply encode_dict_plain.
    + apply Forall_app. split; [apply newline_indent_plain|].
      plain_literal.
  - intros d. unfold json_dumps. destruct d as [|kv d]; [by repeat constructor|].
    constructor; [done|]. apply Forall_app. split; [|by repeat constructor].
    apply join_Forall; [by repeat constructor|].
    apply List.Forall_map, Forall_forall. intros x _.
    apply encode_item_printable.
Qed.


